(** * The worker interface of the workflow isolate

    A shallow embedding of the functions the worker calls inside the workflow
    isolate ([overrideGlobals], [activate], [concludeActivation], [inject],
    [resolveExternalDependencies], [tryUnblockConditions]) over an explicit
    model of the [state] singleton, followed by the properties the
    specification states about them. *)

From Stdlib Require Import ZArith Lia Sorted Permutation.
From stdpp Require Import base option list gmap strings.

Open Scope Z_scope.

(** ** JavaScript values *)

(** The values that cross the isolate boundary or are handed to callbacks.
    Numbers are restricted to the integers. *)
Unset Elimination Schemes.
Inductive Value :=
| VUndefined
| VNull
| VBool (b : bool)
| VNum (n : Z)
| VStr (s : string)
| VError (name message : string)
| VArray (items : list Value)
| VObject (fields : list (string * Value)).
Set Elimination Schemes.

(** [ToBoolean]: what [if (v)] tests. *)
Definition truthy (v : Value) : bool :=
  match v with
  | VUndefined | VNull => false
  | VBool b => b
  | VNum n => negb (n =? 0)
  | VStr s => negb (String.eqb s EmptyString)
  | VError _ _ | VArray _ | VObject _ => true
  end.

Definition Uint8Array := list Byte.byte.

(** A protobuf [Timestamp] / [Duration]. *)
Record Timestamp := { seconds : Z; nanos : Z }.

(** ** Data model *)

(** The resource kinds that own a sequence counter and a completion registry. *)
Inductive Kind :=
| timer | activity | childWorkflow | signal | dependency
| cancelWorkflowExternal | signalWorkflowExternal | condition.

#[global] Instance Kind_eq_dec : EqDecision Kind.
Proof. solve_decision. Defined.

Inductive Command :=
| startTimer (seq : Z) (startToFireTimeout : Timestamp)
| cancelTimer (seq : Z)
| otherCommand (variant : string) (body : Value).

Inductive JobVariant :=
| startWorkflow | fireTimer | resolveActivity | resolveChildWorkflowExecution
| signalWorkflow | queryWorkflow | notifyHasPatch | cancelWorkflow
| removeFromCache | resolveSignalExternalWorkflow
| resolveRequestCancelExternalWorkflow.

#[global] Instance JobVariant_eq_dec : EqDecision JobVariant.
Proof. solve_decision. Defined.

Definition variant_name (v : JobVariant) : string :=
  match v with
  | startWorkflow => "startWorkflow"
  | fireTimer => "fireTimer"
  | resolveActivity => "resolveActivity"
  | resolveChildWorkflowExecution => "resolveChildWorkflowExecution"
  | signalWorkflow => "signalWorkflow"
  | queryWorkflow => "queryWorkflow"
  | notifyHasPatch => "notifyHasPatch"
  | cancelWorkflow => "cancelWorkflow"
  | removeFromCache => "removeFromCache"
  | resolveSignalExternalWorkflow => "resolveSignalExternalWorkflow"
  | resolveRequestCancelExternalWorkflow => "resolveRequestCancelExternalWorkflow"
  end.

(** A decoded job: [variant] names the field of the oneof that is set, and
    [field v] is what [job[v]] reads ([VNull] for a field that is not set). *)
Record Job := { variant : option JobVariant; field : JobVariant -> Value }.

Record Activation := {
  timestamp : option Timestamp;
  isReplaying : option bool;
  jobs : option (list Job)
}.

Record WorkflowInfo := {
  workflowType : string;
  runId : string;
  workflowId : string;
  taskQueue : string;
  namespace : string;
  info_isReplaying : bool
}.

Definition set_isReplaying (b : bool) (i : WorkflowInfo) : WorkflowInfo :=
  {| workflowType := workflowType i; runId := runId i; workflowId := workflowId i;
     taskQueue := taskQueue i; namespace := namespace i; info_isReplaying := b |}.

Record ExternalCall := {
  ifaceName : string;
  fnName : string;
  args : list Value;
  call_seq : option Z
}.

Record ExternalDependencyResult := { seq : Z; result : Value; error : Value }.

Inductive ApplyMode := ASYNC | ASYNC_IGNORED | SYNC | SYNC_PROMISE | SYNC_IGNORED.

(** The function [inject] stores under [state.dependencies[ifaceName][fnName]],
    by the branch that built it. *)
Inductive Stub :=
| StubAsync (ifaceName fnName : string)
| StubAsyncIgnored (ifaceName fnName : string)
| StubSync (dependency : string) (applyMode : ApplyMode) (transferOptions : Value).

Inductive PromiseState :=
| Pending
| Fulfilled (v : Value)
| Rejected (reason : Value).

Inductive Error :=
| IllegalStateError (message : string)
| TypeError (message : string)
| DeterminismViolationError (message : string)
| Thrown (v : Value).

(** *** State that refers to user code

    [Env] stands for the part of the heap that only user code reads and
    writes.  A user function is its effect on [Env]; it does not throw. *)

(** The functions stored in the registries. *)
Inductive Fn (Env : Type) :=
| FnResolve (p : nat)           (* the [resolve] handed to the executor of promise [p] *)
| FnReject (p : nat)            (* the [reject] handed to the executor of promise [p] *)
| FnCallback (cb : list Value -> Env -> Env) (args : list Value)   (* () => cb(...args) *)
| FnIgnore                      (* () => undefined *)
| FnUser (f : Value -> Env -> Env).
Global Arguments FnResolve {_} _.
Global Arguments FnReject {_} _.
Global Arguments FnCallback {_} _ _.
Global Arguments FnIgnore {_}.
Global Arguments FnUser {_} _.

Record Completion (Env : Type) := { resolve : Fn Env; reject : Fn Env }.
Global Arguments Build_Completion {_} _ _.
Global Arguments resolve {_} _.
Global Arguments reject {_} _.

Record Condition (Env : Type) := { fn : Env -> bool; cond_resolve : Fn Env }.
Global Arguments Build_Condition {_} _ _.
Global Arguments fn {_} _.
Global Arguments cond_resolve {_} _.

(** Calls that leave this module, in the order they are made. *)
Inductive Call (Env : Type) :=
| CallHandler (v : JobVariant) (payload : Value)
| CallFn (f : Fn Env) (arg : Value).
Global Arguments CallHandler {_} _ _.
Global Arguments CallFn {_} _ _.

(** The [state] singleton.  Sequence counters are integers: they start at 0
    and a run stays far below 2^53, up to which the numbers of JavaScript
    count exactly.  [blockedConditions] is a JavaScript [Map]: its entries
    are kept in insertion order, under distinct keys.  [promises] holds the
    promises this module creates, a promise being its index; [calls] records
    the calls made to handlers and to registered functions. *)
Record State (Env : Type) := {
  info : option WorkflowInfo;
  now : Z;
  commands : list Command;
  nextSeqs : Kind -> Z;
  completions : Kind -> gmap Z (Completion Env);
  blockedConditions : list (Z * Condition Env);
  pendingExternalCalls : list ExternalCall;
  dependencies : gmap string (gmap string Stub);
  completed : bool;
  promises : list PromiseState;
  env : Env;
  calls : list (Call Env)
}.
Global Arguments Build_State {_} _ _ _ _ _ _ _ _ _ _ _ _.
Global Arguments info {_} _.
Global Arguments now {_} _.
Global Arguments commands {_} _.
Global Arguments nextSeqs {_} _ _.
Global Arguments completions {_} _ _.
Global Arguments blockedConditions {_} _.
Global Arguments pendingExternalCalls {_} _.
Global Arguments dependencies {_} _.
Global Arguments completed {_} _.
Global Arguments promises {_} _.
Global Arguments env {_} _.
Global Arguments calls {_} _.

Section Setters.
Context {Env : Type}.
Implicit Type st : State Env.

Definition set_info x st :=
    Build_State x (now st) (commands st) (nextSeqs st) (completions st)
      (blockedConditions st) (pendingExternalCalls st) (dependencies st)
      (completed st) (promises st) (env st) (calls st).
Definition set_now x st :=
    Build_State (info st) x (commands st) (nextSeqs st) (completions st)
      (blockedConditions st) (pendingExternalCalls st) (dependencies st)
      (completed st) (promises st) (env st) (calls st).
Definition set_commands x st :=
    Build_State (info st) (now st) x (nextSeqs st) (completions st)
      (blockedConditions st) (pendingExternalCalls st) (dependencies st)
      (completed st) (promises st) (env st) (calls st).
Definition set_nextSeqs x st :=
    Build_State (info st) (now st) (commands st) x (completions st)
      (blockedConditions st) (pendingExternalCalls st) (dependencies st)
      (completed st) (promises st) (env st) (calls st).
Definition set_completions x st :=
    Build_State (info st) (now st) (commands st) (nextSeqs st) x
      (blockedConditions st) (pendingExternalCalls st) (dependencies st)
      (completed st) (promises st) (env st) (calls st).
Definition set_blockedConditions x st :=
    Build_State (info st) (now st) (commands st) (nextSeqs st) (completions st)
      x (pendingExternalCalls st) (dependencies st)
      (completed st) (promises st) (env st) (calls st).
Definition set_pendingExternalCalls x st :=
    Build_State (info st) (now st) (commands st) (nextSeqs st) (completions st)
      (blockedConditions st) x (dependencies st)
      (completed st) (promises st) (env st) (calls st).
Definition set_dependencies x st :=
    Build_State (info st) (now st) (commands st) (nextSeqs st) (completions st)
      (blockedConditions st) (pendingExternalCalls st) x
      (completed st) (promises st) (env st) (calls st).
Definition set_completed x st :=
    Build_State (info st) (now st) (commands st) (nextSeqs st) (completions st)
      (blockedConditions st) (pendingExternalCalls st) (dependencies st)
      x (promises st) (env st) (calls st).
Definition set_promises x st :=
    Build_State (info st) (now st) (commands st) (nextSeqs st) (completions st)
      (blockedConditions st) (pendingExternalCalls st) (dependencies st)
      (completed st) x (env st) (calls st).
Definition set_env x st :=
    Build_State (info st) (now st) (commands st) (nextSeqs st) (completions st)
      (blockedConditions st) (pendingExternalCalls st) (dependencies st)
      (completed st) (promises st) x (calls st).
Definition set_calls x st :=
    Build_State (info st) (now st) (commands st) (nextSeqs st) (completions st)
      (blockedConditions st) (pendingExternalCalls st) (dependencies st)
      (completed st) (promises st) (env st) x.

(** [m[k] = f(m[k])] on a table indexed by kind. *)
Definition upd {A} (k : Kind) (x : A) (m : Kind -> A) : Kind -> A :=
    fun k' => if decide (k = k') then x else m k'.
End Setters.

(** ** Computations on the state

    A function of the module runs on the state and either returns or throws;
    what it wrote before throwing stays written. *)
Inductive Outcome (Env A : Type) :=
| Ok (a : A) (st : State Env)
| Throw (e : Error) (st : State Env).
Global Arguments Ok {_ _} _ _.
Global Arguments Throw {_ _} _ _.

Definition M (Env A : Type) := State Env -> Outcome Env A.

Definition ret {Env A} (a : A) : M Env A := fun st => Ok a st.
Definition throw {Env A} (e : Error) : M Env A := fun st => Throw e st.
Definition bind {Env A B} (m : M Env A) (k : A -> M Env B) : M Env B :=
  fun st => match m st with
            | Ok a st' => k a st'
            | Throw e st' => Throw e st'
            end.
Definition gets {Env A} (f : State Env -> A) : M Env A := fun st => Ok (f st) st.
Definition modify {Env} (f : State Env -> State Env) : M Env unit := fun st => Ok tt (f st).

Declare Scope js_scope.
Delimit Scope js_scope with js.
Notation "x <- m ;; k" := (bind m (fun x => k))
  (at level 100, m at next level, right associativity) : js_scope.
Notation "m ;; k" := (bind m (fun _ => k))
  (at level 100, right associativity) : js_scope.
Open Scope js_scope.

Definition final_state {Env A} (o : Outcome Env A) : State Env :=
  match o with Ok _ st => st | Throw _ st => st end.

Definition returned {Env A} (o : Outcome Env A) : option A :=
  match o with Ok a _ => Some a | Throw _ _ => None end.

(** ** What the module imports

    The module calls functions of the SDK and of its libraries that are
    defined elsewhere.  They are the fields of [Host]; the functions of the
    module are defined once, for every host. *)

Record ActivateInput := { input_activation : Activation; input_batchIndex : Z }.
Record ConcludeActivationInput := { input_commands : list Command }.

(** An object of [state.interceptors.internals]: each method may be absent. *)
Record InternalsInterceptor (Env : Type) := {
  on_activate :
    option (ActivateInput -> (ActivateInput -> M Env unit) -> M Env unit);
  on_concludeActivation :
    option (ConcludeActivationInput ->
            (ConcludeActivationInput -> M Env ConcludeActivationInput) ->
            M Env ConcludeActivationInput)
}.
Global Arguments Build_InternalsInterceptor {_} _ _.
Global Arguments on_activate {_} _.
Global Arguments on_concludeActivation {_} _.

Class Host := {
  Env : Type;
  (* @temporalio/common *)
  tsToMs : Timestamp -> Z;
  msToTs : Z -> Timestamp;
  (* @temporalio/proto *)
  decodeDelimited : Uint8Array -> Activation;
  encodeDelimited : option string -> list Command -> Uint8Array;
  (* isolated-vm: [reference[applyMode](undefined, args, transferOptions)] *)
  applyReference : string -> ApplyMode -> list Value -> Value -> Error + Value;
  (* ./internals: the handler of each job variant *)
  activator : JobVariant -> Value -> M Env unit;
  (* state.interceptors.internals, filled once by initRuntime *)
  internals : list (InternalsInterceptor Env)
}.

(** What a dependency stub hands back to the workflow. *)
Inductive StubReturn :=
| RetPromise (p : nat)
| RetValue (v : Value).

Inductive ActivationConclusion :=
| pending (pendingExternalCalls : list ExternalCall) (numBlockedConditions : Z)
| complete (encoded : Uint8Array).

Record ActivationResult := {
  externalCalls : list ExternalCall;
  numBlockedConditions : Z
}.

(** The globals [overrideGlobals] replaces, each as the function bound to the
    name.  [Date] is construction with the given arguments. *)
Record Globals (Env : Type) := {
  WeakMap : list Value -> M Env Value;
  WeakSet : list Value -> M Env Value;
  WeakRef : list Value -> M Env Value;
  Date : list Value -> M Env Value;
  Date_now : M Env Z;
  Date_parse : list Value -> M Env Value;
  Date_UTC : list Value -> M Env Value;
  setTimeout : (list Value -> Env -> Env) -> Z -> list Value -> M Env Z;
  clearTimeout : Z -> M Env unit
}.
Global Arguments Build_Globals {_} _ _ _ _ _ _ _ _ _.
Global Arguments WeakMap {_} _.
Global Arguments WeakSet {_} _.
Global Arguments WeakRef {_} _.
Global Arguments Date {_} _.
Global Arguments Date_now {_} _.
Global Arguments Date_parse {_} _.
Global Arguments Date_UTC {_} _.
Global Arguments setTimeout {_} _.
Global Arguments clearTimeout {_} _.

(** ** The module *)

Section WorkerInterface.
Context `{Host}.

Abbreviation State := (State Env).
Abbreviation Fn := (Fn Env).

(** Modelled from the spec: [state.pushCommand] of ./internals, which is not
    among the sources.  "The command buffer is an append-only list;
    pushCommand(cmd) appends." *)
Definition pushCommand (cmd : Command) : M Env unit :=
  modify (fun st => set_commands (commands st ++ [cmd]) st).

(** Modelled from the spec: [state.getAndResetPendingExternalCalls] of
    ./internals, which is not among the sources.  "Returns and clears the
    list." *)
Definition state_getAndResetPendingExternalCalls : M Env (list ExternalCall) :=
  fun st => Ok (pendingExternalCalls st) (set_pendingExternalCalls [] st).

(** Modelled from the spec: [consumeCompletion] of ./internals, which is not
    among the sources.  "consumeCompletion(kind, seq) atomically removes and
    returns the entry, failing with illegal-state if not found." *)
Definition consumeCompletion (k : Kind) (s : Z) : M Env (Completion Env) :=
  fun st =>
    match completions st k !! s with
    | None => Throw (IllegalStateError "No completion for the given kind and sequence") st
    | Some c =>
        Ok c (set_completions (upd k (delete s (completions st k)) (completions st)) st)
    end.

(** Modelled from the spec: [composeInterceptors] of @temporalio/common, which
    is not among the sources.  "Composition wraps them innermost-last around
    the base handler, passing (input, next)."  An interceptor that lacks the
    method is skipped. *)
Definition composeInterceptors {X I O}
    (interceptors : list X) (method : X -> option (I -> (I -> M Env O) -> M Env O))
    (next : I -> M Env O) : I -> M Env O :=
  foldr (fun interceptor next =>
           match method interceptor with
           | Some f => fun input => f input next
           | None => next
           end) next interceptors.

(** Settling promise [p]: only a pending promise changes. *)
Definition settle (p : nat) (s : PromiseState) (st : State) : State :=
  match promises st !! p with
  | Some Pending => set_promises (<[p := s]> (promises st)) st
  | _ => st
  end.

(** Calling a registered function with one argument. *)
Definition call_fn (f : Fn) (v : Value) : M Env unit :=
  modify (fun st => set_calls (calls st ++ [CallFn f v]) st) ;;
  match f with
  | FnResolve p => modify (settle p (Fulfilled v))
  | FnReject p => modify (settle p (Rejected v))
  | FnCallback cb args => modify (fun st => set_env (cb args (env st)) st)
  | FnIgnore => ret tt
  | FnUser g => modify (fun st => set_env (g v (env st)) st)
  end.

(** [state.nextSeqs[k]++] *)
Definition next_seq (k : Kind) : M Env Z :=
  fun st => Ok (nextSeqs st k) (set_nextSeqs (upd k (nextSeqs st k + 1) (nextSeqs st)) st).

(** [state.completions[k].set(s, c)] *)
Definition set_completion (k : Kind) (s : Z) (c : Completion Env) : M Env unit :=
  modify (fun st => set_completions (upd k (<[s := c]> (completions st k)) (completions st)) st).

(** [state.completions[k].delete(s)] *)
Definition delete_completion (k : Kind) (s : Z) : M Env unit :=
  modify (fun st => set_completions (upd k (delete s (completions st k)) (completions st)) st).

(** *** overrideGlobals

    The replacement of [Math.random], a generator of floating-point numbers,
    is not part of the model, nor is [Date.prototype]. *)

Definition overrideGlobals (global : Globals Env) : Globals Env :=
  let OriginalDate := Date global in
  {| WeakMap := fun _ =>
       throw (DeterminismViolationError
                "WeakMap cannot be used in workflows because v8 GC is non-deterministic");
     WeakSet := fun _ =>
       throw (DeterminismViolationError
                "WeakSet cannot be used in workflows because v8 GC is non-deterministic");
     WeakRef := fun _ =>
       throw (DeterminismViolationError
                "WeakRef cannot be used in workflows because v8 GC is non-deterministic");
     Date := fun args =>
       if (0 <? Z.of_nat (length args)) then OriginalDate args
       else (t <- gets now ;; OriginalDate [VNum t]);
     Date_now := gets now;
     Date_parse := Date_parse global;
     Date_UTC := Date_UTC global;
     setTimeout := fun cb ms args =>
       seq <- next_seq timer ;;
       set_completion timer seq
         {| resolve := FnCallback cb args; reject := FnIgnore |} ;;
       pushCommand (startTimer seq (msToTs ms)) ;;
       ret seq;
     clearTimeout := fun handle =>
       next_seq timer ;;
       delete_completion timer handle ;;
       pushCommand (cancelTimer handle)
  |}.

(** *** tryUnblockConditions *)

(** [state.blockedConditions.delete(seq)] *)
Definition delete_blockedCondition (s : Z) : M Env unit :=
  modify (fun st =>
    set_blockedConditions
      (filter (fun e => e.1 <> s) (blockedConditions st)) st).

(** One run of the inner [for .. of] over the entries of the map. *)
Fixpoint unblock_entries (entries : list (Z * Condition Env)) (numUnblocked : Z)
  : M Env Z :=
  match entries with
  | [] => ret numUnblocked
  | (seq, cond) :: rest =>
      b <- gets (fun st => fn cond (env st)) ;;
      if b then
        call_fn (cond_resolve cond) VUndefined ;;
        delete_blockedCondition seq ;;
        unblock_entries rest (numUnblocked + 1)
      else unblock_entries rest numUnblocked
  end.

Definition unblock_pass (numUnblocked : Z) : M Env Z :=
  fun st => unblock_entries (blockedConditions st) numUnblocked st.

(** The outer [for (;;)], cut off after [passes] runs of the inner loop. *)
Fixpoint unblock_loop (passes : nat) (numUnblocked : Z) : M Env Z :=
  match passes with
  | O => ret numUnblocked
  | S passes' =>
      let prevUnblocked := numUnblocked in
      numUnblocked <- unblock_pass numUnblocked ;;
      if prevUnblocked =? numUnblocked then ret numUnblocked
      else unblock_loop passes' numUnblocked
  end.

(** A pass that unblocks something removes an entry, so the loop ends within
    one pass more than there are entries ([unblock_loop_passes] below: any
    larger number of passes gives the same result). *)
Definition tryUnblockConditions : M Env Z :=
  fun st => unblock_loop (S (length (blockedConditions st))) 0 st.

(** *** inject and the dependency stubs *)

Definition inject (ifaceName fnName dependency : string) (applyMode : ApplyMode)
    (transferOptions : Value) : M Env unit :=
  modify (fun st =>
    match dependencies st !! ifaceName with
    | None => set_dependencies (<[ifaceName := ∅]> (dependencies st)) st
    | Some _ => st
    end) ;;
  let stub :=
    match applyMode with
    | ASYNC => StubAsync ifaceName fnName
    | ASYNC_IGNORED => StubAsyncIgnored ifaceName fnName
    | _ => StubSync dependency applyMode transferOptions
    end in
  modify (fun st =>
    set_dependencies
      (<[ifaceName := <[fnName := stub]> (default ∅ (dependencies st !! ifaceName))]>
         (dependencies st)) st).

(** [state.pendingExternalCalls.push(call)], which returns the new length. *)
Definition push_pendingExternalCall (call : ExternalCall) : M Env Z :=
  fun st =>
    let calls' := pendingExternalCalls st ++ [call] in
    Ok (Z.of_nat (length calls')) (set_pendingExternalCalls calls' st).

(** [new Promise(executor)]: the promise is pending when the executor runs. *)
Definition new_promise : M Env nat :=
  fun st => Ok (length (promises st)) (set_promises (promises st ++ [Pending]) st).

(** Calling the stub with [args]. *)
Definition call_stub (stub : Stub) (args : list Value) : M Env StubReturn :=
  match stub with
  | StubAsync ifaceName fnName =>
      p <- new_promise ;;
      seq <- next_seq dependency ;;
      set_completion dependency seq {| resolve := FnResolve p; reject := FnReject p |} ;;
      push_pendingExternalCall
        {| ifaceName := ifaceName; fnName := fnName; args := args; call_seq := Some seq |} ;;
      ret (RetPromise p)
  | StubAsyncIgnored ifaceName fnName =>
      n <- push_pendingExternalCall
             {| ifaceName := ifaceName; fnName := fnName; args := args; call_seq := None |} ;;
      ret (RetValue (VNum n))
  | StubSync reference applyMode transferOptions =>
      match applyReference reference applyMode args transferOptions with
      | inl e => throw e
      | inr v => ret (RetValue v)
      end
  end.

(** [state.dependencies[ifaceName][fnName](...args)] *)
Definition call_dependency (ifaceName fnName : string) (args : list Value)
  : M Env StubReturn :=
  fun st =>
    match dependencies st !! ifaceName ≫= (fun fns => fns !! fnName) with
    | Some stub => call_stub stub args st
    | None => Throw (TypeError "not a function") st
    end.

(** *** resolveExternalDependencies *)

Fixpoint resolveExternalDependencies (results : list ExternalDependencyResult)
  : M Env unit :=
  match results with
  | [] => ret tt
  | r :: rest =>
      completion <- consumeCompletion dependency (seq r) ;;
      (if truthy (error r) then call_fn (reject completion) (error r)
       else call_fn (resolve completion) (result r)) ;;
      resolveExternalDependencies rest
  end.

Definition getAndResetPendingExternalCalls : M Env (list ExternalCall) :=
  state_getAndResetPendingExternalCalls.

(** *** concludeActivation *)

Definition concludeActivation : M Env ActivationConclusion :=
  pendingExternalCalls <- state_getAndResetPendingExternalCalls ;;
  if 0 <? Z.of_nat (length pendingExternalCalls) then
    n <- gets (fun st => Z.of_nat (length (blockedConditions st))) ;;
    ret (pending pendingExternalCalls n)
  else
    let intercept :=
      composeInterceptors internals on_concludeActivation (fun input => ret input) in
    info <- gets info ;;
    cmds <- gets commands ;;
    out <- intercept {| input_commands := cmds |} ;;
    let encoded := encodeDelimited (runId <$> info) (input_commands out) in
    modify (set_commands []) ;;
    ret (complete encoded).

(** *** activate *)

(** How far the async function mapped over a job got when [map] moved on:
    it returned, it threw, or it reached its [await]. *)
Inductive JobStatus :=
| JobReturned
| JobThrew (e : Error)
| JobAwaiting.

(** The body of the function mapped over the jobs, up to its [await]. *)
Definition start_job (job : Job) (st : State) : JobStatus * State :=
  match variant job with
  | None => (JobThrew (TypeError "Expected job.variant to be defined"), st)
  | Some v =>
      let payload := field job v in
      if negb (truthy payload) then
        (JobThrew (TypeError ("Expected job." +:+ variant_name v +:+ " to be set")), st)
      else if completed st && negb (bool_decide (v = queryWorkflow)) then
        (JobReturned, st)
      else
        match activator v payload (set_calls (calls st ++ [CallHandler v payload]) st) with
        | Ok _ st' => (JobAwaiting, st')
        | Throw e st' => (JobThrew e, st')
        end
  end.

(** [jobs.map(async (job) => ...)]: every function runs to its [await], in
    the order of the jobs, whatever the earlier ones did. *)
Fixpoint start_jobs (jobs : list Job) (st : State) : list JobStatus * State :=
  match jobs with
  | [] => ([], st)
  | job :: rest =>
      let '(s, st1) := start_job job st in
      let '(ss, st2) := start_jobs rest st1 in
      (s :: ss, st2)
  end.

(** What follows the [await], for the functions that reached it. *)
Fixpoint resume_jobs (statuses : list JobStatus) (st : State) : State :=
  match statuses with
  | [] => st
  | JobAwaiting :: rest => resume_jobs rest (final_state (tryUnblockConditions st))
  | _ :: rest => resume_jobs rest st
  end.

(** [Promise.all] rejects with the first rejection. *)
Fixpoint first_rejection (statuses : list JobStatus) : option Error :=
  match statuses with
  | [] => None
  | JobThrew e :: _ => Some e
  | _ :: rest => first_rejection rest
  end.

(** The handler the interceptors of [activate] wrap. *)
Definition activate_handler (input : ActivateInput) : M Env unit :=
  let activation := input_activation input in
  let batchIndex := input_batchIndex input in
  (if batchIndex =? 0 then
     fun st =>
       match info st with
       | None => Throw (IllegalStateError "Workflow has not been initialized") st
       | Some i =>
           match jobs activation with
           | None => Throw (TypeError "Got activation with no jobs") st
           | Some _ =>
               let st1 :=
                 match timestamp activation with
                 | Some ts => set_now (tsToMs ts) st
                 | None => st
                 end in
               Ok tt (set_info
                        (Some (set_isReplaying (default false (isReplaying activation)) i))
                        st1)
           end
       end
   else ret tt) ;;
  match jobs activation with
  | None => throw (TypeError "Cannot read properties of null (reading 'map')")
  | Some jobs =>
      fun st =>
        let '(statuses, st1) := start_jobs jobs st in
        let st2 := resume_jobs statuses st1 in
        match first_rejection statuses with
        | Some e => Throw e st2
        | None => Ok tt st2
        end
  end.

Definition activate (encodedActivation : Uint8Array) (batchIndex : Z)
  : M Env ActivationResult :=
  let activation := decodeDelimited encodedActivation in
  let intercept := composeInterceptors internals on_activate activate_handler in
  intercept {| input_activation := activation; input_batchIndex := batchIndex |} ;;
  externalCalls <- state_getAndResetPendingExternalCalls ;;
  n <- gets (fun st => Z.of_nat (length (blockedConditions st))) ;;
  ret {| externalCalls := externalCalls; numBlockedConditions := n |}.

End WorkerInterface.

(** ** Vocabulary of the properties *)

Section Vocabulary.
Context `{Host}.

(** Promise [p] is pending and its two functions are registered as the
    dependency completion [s]: what a call through an [ASYNC] stub leaves
    behind. *)
Definition awaits_dependency (st : State Env) (s : Z) (p : nat) : Prop :=
  completions st dependency !! s =
    Some {| resolve := FnResolve p; reject := FnReject p |}
  /\ promises st !! p = Some Pending.

(** The call [tryUnblockConditions] makes to the resolver of an entry. *)
Definition resolver_call (e : Z * Condition Env) : Call Env :=
  CallFn (cond_resolve e.2) VUndefined.

(** The predicate of an entry, evaluated on a user heap. *)
Definition holds (e : Z * Condition Env) (user : Env) : bool := fn e.2 user.

(** Functions that do not run user code: settling a promise is not
    observable before the next microtask. *)
Definition settles_only (f : Fn Env) : bool :=
  match f with
  | FnResolve _ | FnReject _ | FnIgnore => true
  | FnCallback _ _ | FnUser _ => false
  end.

(** What calling a registered function does to the user heap. *)
Definition fn_effect (f : Fn Env) (v : Value) (user : Env) : Env :=
  match f with
  | FnCallback cb args => cb args user
  | FnUser g => g v user
  | FnResolve _ | FnReject _ | FnIgnore => user
  end.

(** The user heap after the resolvers of [removed] have been called in turn. *)
Definition heap_after (removed : list (Z * Condition Env)) (user : Env) : Env :=
  foldl (fun user e => fn_effect (cond_resolve e.2) VUndefined user) user removed.

(** Each entry of [removed] held when its turn came: on [user] for the
    first, and for the others on the heap the resolvers before them left. *)
Fixpoint held_in_turn (user : Env) (removed : list (Z * Condition Env)) : Prop :=
  match removed with
  | [] => True
  | e :: rest =>
      holds e user = true
      /\ held_in_turn (fn_effect (cond_resolve e.2) VUndefined user) rest
  end.

(** [st'] differs from [st] at most in the blocked conditions, the promises,
    the user heap and the record of calls. *)
Definition same_bookkeeping (st st' : State Env) : Prop :=
  info st' = info st /\ now st' = now st /\ commands st' = commands st
  /\ nextSeqs st' = nextSeqs st /\ completions st' = completions st
  /\ pendingExternalCalls st' = pendingExternalCalls st
  /\ dependencies st' = dependencies st /\ completed st' = completed st.

(** *** Runs

    What the worker and workflow code do to the state in the course of a
    run, as the sequence of the operations of this module they perform. *)
Inductive Op :=
| OpActivate (encodedActivation : Uint8Array) (batchIndex : Z)
| OpConcludeActivation
| OpSetTimeout (cb : list Value -> Env -> Env) (ms : Z) (args : list Value)
| OpClearTimeout (handle : Z)
| OpInject (ifaceName fnName reference : string) (applyMode : ApplyMode)
    (transferOptions : Value)
| OpCallDependency (ifaceName fnName : string) (args : list Value)
| OpResolveExternalDependencies (results : list ExternalDependencyResult)
| OpTryUnblockConditions
| OpGetAndResetPendingExternalCalls.

(** The sequence number an operation hands out, read off what it returns or
    queues: the handle [setTimeout] returns, the [seq] of the call an [ASYNC]
    stub appends.  The state goes on from wherever the operation stopped. *)
Definition exec_op (global : Globals Env) (op : Op) (st : State Env)
  : list (Kind * Z) * State Env :=
  match op with
  | OpActivate encodedActivation batchIndex =>
      ([], final_state (activate encodedActivation batchIndex st))
  | OpConcludeActivation => ([], final_state (concludeActivation st))
  | OpSetTimeout cb ms args =>
      match setTimeout (overrideGlobals global) cb ms args st with
      | Ok handle st' => ([(timer, handle)], st')
      | Throw _ st' => ([], st')
      end
  | OpClearTimeout handle =>
      ([], final_state (clearTimeout (overrideGlobals global) handle st))
  | OpInject ifaceName fnName reference applyMode transferOptions =>
      ([], final_state (inject ifaceName fnName reference applyMode transferOptions st))
  | OpCallDependency ifaceName fnName args =>
      match call_dependency ifaceName fnName args st with
      | Ok (RetPromise _) st' =>
          (match last (pendingExternalCalls st') ≫= call_seq with
           | Some s => [(dependency, s)]
           | None => []
           end, st')
      | Ok (RetValue _) st' => ([], st')
      | Throw _ st' => ([], st')
      end
  | OpResolveExternalDependencies results =>
      ([], final_state (resolveExternalDependencies results st))
  | OpTryUnblockConditions => ([], final_state (tryUnblockConditions st))
  | OpGetAndResetPendingExternalCalls =>
      ([], final_state (getAndResetPendingExternalCalls st))
  end.

Fixpoint run (global : Globals Env) (ops : list Op) (st : State Env)
  : list (Kind * Z) * State Env :=
  match ops with
  | [] => ([], st)
  | op :: ops =>
      let '(log1, st1) := exec_op global op st in
      let '(log2, st2) := run global ops st1 in
      (log1 ++ log2, st2)
  end.

(** The sequence numbers of kind [k] in a log, in the order handed out. *)
Definition seqs_of (k : Kind) (log : list (Kind * Z)) : list Z :=
  omap (fun e => if decide (e.1 = k) then Some e.2 else None) log.

(** Every registered completion sits below the counter of its kind, as in a
    fresh state, where the registries are empty. *)
Definition registry_below (st : State Env) : Prop :=
  forall k s, is_Some (completions st k !! s) -> s < nextSeqs st k.

(** An operation that allocates nothing: the counters stay and the
    registries do not grow. *)
Definition quiet_step (st st' : State Env) : Prop :=
  nextSeqs st' = nextSeqs st
  /\ forall k s, is_Some (completions st' k !! s) -> is_Some (completions st k !! s).

(** A step that may hand out numbers of its own: no counter goes back, and
    the registered completions stay below the counters. *)
Definition orderly_step (st st' : State Env) : Prop :=
  (registry_below st -> registry_below st')
  /\ forall k, nextSeqs st k <= nextSeqs st' k.

(** What a run assumes of the code around the module: the handlers of the
    activator take orderly steps, and no interceptor wraps [activate] or
    [concludeActivation]. *)
Definition orderly_host : Prop :=
  (forall v payload st, orderly_step st (final_state (activator v payload st)))
  /\ Forall (fun i => on_activate i = None /\ on_concludeActivation i = None) internals.

End Vocabulary.

(** ** A sample host and sample states

    A host on which the functions of the module can be run: the user heap is
    one integer, an activation is decoded from a first byte that gives the
    seconds of its timestamp and one byte per job, and the activator answers
    queries with a [respondToQuery] command. *)

Definition sample_job (b : Byte.byte) : Job :=
  {| variant := Some (if Byte.eqb b Byte.x00 then queryWorkflow else fireTimer);
     field := fun _ => VObject [("id", VStr "1")] |}.

Definition sample_decode (bytes : Uint8Array) : Activation :=
  {| timestamp :=
       match bytes with
       | [] => None
       | b :: _ => Some {| seconds := Z.of_N (Byte.to_N b); nanos := 0 |}
       end;
     isReplaying := Some false;
     jobs := Some (map sample_job (tail bytes)) |}.

Definition sample_activator (v : JobVariant) (payload : Value) : M Z unit :=
  match v with
  | queryWorkflow =>
      modify (fun st =>
        set_commands (commands st ++ [otherCommand "respondToQuery" payload]) st)
  | _ => ret tt
  end.

Definition sample_host : Host :=
  {| Env := Z;
     tsToMs := fun ts => seconds ts * 1000 + nanos ts / 1000000;
     msToTs := fun ms => {| seconds := ms / 1000; nanos := (ms mod 1000) * 1000000 |};
     decodeDelimited := sample_decode;
     encodeDelimited := fun _ cmds => repeat Byte.x01 (length cmds);
     applyReference := fun _ _ _ _ => inr VUndefined;
     activator := sample_activator;
     internals := [] |}.

(** The same host with one interceptor, which lets [concludeActivation]
    flush the [cancelTimer] commands only. *)
Definition cancelTimer_only : InternalsInterceptor Z :=
  {| on_activate := None;
     on_concludeActivation := Some (fun input next =>
       next {| input_commands :=
                 List.filter
                   (fun c => match c with cancelTimer _ => true | _ => false end)
                   (input_commands input) |}) |}.

Definition intercepting_host : Host :=
  {| Env := Z;
     tsToMs := tsToMs (Host := sample_host);
     msToTs := msToTs (Host := sample_host);
     decodeDelimited := sample_decode;
     encodeDelimited := encodeDelimited (Host := sample_host);
     applyReference := applyReference (Host := sample_host);
     activator := sample_activator;
     internals := [cancelTimer_only] |}.

Definition sample_info : WorkflowInfo :=
  {| workflowType := "sleeper"; runId := "run-1"; workflowId := "wf-1";
     taskQueue := "queue"; namespace := "default"; info_isReplaying := false |}.

(** The state of a run that has just been initialized. *)
Definition fresh_state : State (@Env sample_host) :=
  {| info := Some sample_info; now := 0; commands := [];
     nextSeqs := fun _ => 0; completions := fun _ => ∅;
     blockedConditions := []; pendingExternalCalls := []; dependencies := ∅;
     completed := false; promises := []; env := 0; calls := [] |}.

Definition sample_globals : Globals (@Env sample_host) :=
  {| WeakMap := fun _ => ret (VStr "WeakMap");
     WeakSet := fun _ => ret (VStr "WeakSet");
     WeakRef := fun _ => ret (VStr "WeakRef");
     Date := fun args => ret (default VUndefined (head args));
     Date_now := ret 1634000000000;
     Date_parse := fun _ => ret VUndefined;
     Date_UTC := fun _ => ret VUndefined;
     setTimeout := fun _ _ _ => ret (-1);
     clearTimeout := fun _ => ret tt |}.

(** Two conditions wait: the first for the heap to exceed 5, the second for
    it to be positive, and resolving the second adds 10 to the heap. *)
Definition waiting_state : State (@Env sample_host) :=
  set_env 1
    (set_blockedConditions
       [(0, {| fn := fun user => 5 <? user; cond_resolve := FnIgnore |});
        (1, {| fn := fun user => 0 <? user;
               cond_resolve := FnUser (fun _ user => user + 10) |})]
       fresh_state).

(** A completed workflow. *)
Definition completed_state : State (@Env sample_host) :=
  set_completed true
    (set_commands [otherCommand "completeWorkflowExecution" VUndefined] fresh_state).

(** The state after one call through an [ASYNC] stub. *)
Definition awaiting_state : State (@Env sample_host) :=
  final_state (call_stub (StubAsync "api" "get") [VNum 1] fresh_state).

(** A state with one queued external call and one buffered command. *)
Definition calling_state : State (@Env sample_host) :=
  set_pendingExternalCalls
    [{| ifaceName := "metrics"; fnName := "emit"; args := [VNum 42]; call_seq := None |}]
    (set_commands [cancelTimer 0] fresh_state).

(** ** The worker's side of the bridge

    [processExternalCalls], [injectDependency] and
    [addDefaultTransferOptions] of packages/worker/src/workflow.ts.  They run
    in the main isolate; what they do to the workflow isolate goes through
    [inject] and [resolveExternalDependencies]. *)

(** A function the worker registers for the workflow: what it returns for
    the arguments, or what it throws. *)
Inductive HostOutcome :=
| Returns (v : Value)
| Throws (e : Value).

(** One element of [results] in [processExternalCalls]. *)
Record CallResult := {
  res_seq : option Z;
  res_error : Value;
  res_result : Value
}.

(** [ivm.TransferOptionsBidirectional]: an object, by its own keys. *)
Abbreviation TransferOptions := (gmap string Value).

Definition copy_true : Value := VObject [("copy", VBool true)].

(** [{ ...defaultTransferOptions, ...transferOptions }]: a key of
    [transferOptions] wins. *)
Definition addDefaultTransferOptions (applyMode : ApplyMode)
    (transferOptions : option TransferOptions) : TransferOptions :=
  let defaultTransferOptions : TransferOptions :=
    match applyMode with
    | SYNC_PROMISE => {[ "arguments" := copy_true ]}
    | _ => <[ "arguments" := copy_true ]> {[ "result" := copy_true ]}
    end in
  default ∅ transferOptions ∪ defaultTransferOptions.

(** The body of the function mapped over the external calls. *)
Definition call_external
    (dependencies : gmap string (gmap string (list Value -> HostOutcome)))
    (call : ExternalCall) : Error + CallResult :=
  match dependencies !! ifaceName call ≫= (fun fns => fns !! fnName call) with
  | None =>
      inl (TypeError ("Tried to call unregistered external dependency function "
                      +:+ ifaceName call +:+ "." +:+ fnName call))
  | Some fn =>
      inr (match fn (args call) with
           | Returns v =>
               {| res_seq := call_seq call; res_error := VUndefined; res_result := v |}
           | Throws e =>
               {| res_seq := call_seq call; res_error := e; res_result := VUndefined |}
           end)
  end.

(** [Promise.all] over promises that are settled in the order of the list:
    all the values, or the first rejection. *)
Fixpoint promise_all {A} (settled : list (Error + A)) : Error + list A :=
  match settled with
  | [] => inr []
  | inl e :: _ => inl e
  | inr a :: rest =>
      match promise_all rest with
      | inl e => inl e
      | inr values => inr (a :: values)
      end
  end.

(** The filter [r.seq !== undefined], with the type it narrows to. *)
Definition not_ignored (r : CallResult) : option ExternalDependencyResult :=
  match res_seq r with
  | Some s => Some {| seq := s; result := res_result r; error := res_error r |}
  | None => None
  end.

Section WorkerBridge.
Context `{Host}.

Definition processExternalCalls
    (dependencies : gmap string (gmap string (list Value -> HostOutcome)))
    (externalCalls : list ExternalCall) (sendResultsBack : bool) : M Env unit :=
  match promise_all (map (call_external dependencies) externalCalls) with
  | inl e => throw e
  | inr results =>
      if negb sendResultsBack then ret tt
      else
        let notIgnored := omap not_ignored results in
        if 0 <? Z.of_nat (length notIgnored)
        then resolveExternalDependencies notIgnored
        else ret tt
  end.

(** [injectDependency] returns the worker's table of dependencies as it
    leaves it.  [reference] names the [ivm.Reference] made for [fn]. *)
Definition injectDependency
    (dependencies : gmap string (gmap string (list Value -> HostOutcome)))
    (ifaceName fnName : string) (fn : list Value -> HostOutcome) (reference : string)
    (applyMode : ApplyMode) (transferOptions : option TransferOptions)
  : M Env (gmap string (gmap string (list Value -> HostOutcome))) :=
  let dependencies' :=
    match applyMode with
    | ASYNC | ASYNC_IGNORED =>
        <[ifaceName := <[fnName := fn]> (default ∅ (dependencies !! ifaceName))]>
          dependencies
    | _ => dependencies
    end in
  let transferOptions := addDefaultTransferOptions applyMode transferOptions in
  inject ifaceName fnName reference applyMode (VObject (map_to_list transferOptions)) ;;
  ret dependencies'.

(** Workflow code calling [ASYNC] stubs one after the other. *)
Fixpoint call_async_stubs (requests : list (string * string * list Value))
  : M Env (list StubReturn) :=
  match requests with
  | [] => ret []
  | (ifaceName, fnName, args) :: rest =>
      r <- call_stub (StubAsync ifaceName fnName) args ;;
      rs <- call_async_stubs rest ;;
      ret (r :: rs)
  end.

(** The calls [call_async_stubs] queues, the first tagged [s]. *)
Fixpoint queued_calls (s : Z) (requests : list (string * string * list Value))
  : list ExternalCall :=
  match requests with
  | [] => []
  | (ifaceName, fnName, args) :: rest =>
      {| ifaceName := ifaceName; fnName := fnName; args := args; call_seq := Some s |}
        :: queued_calls (s + 1) rest
  end.

End WorkerBridge.

(** ** The worker's logger (packages/worker/src/logger.ts) *)

Inductive LogLevel := TRACE | DEBUG | INFO | WARN | ERROR.

#[global] Instance LogLevel_eq_dec : EqDecision LogLevel.
Proof. solve_decision. Defined.

Definition severities : list LogLevel := [TRACE; DEBUG; INFO; WARN; ERROR].

(** [Array.prototype.indexOf]: the first index, or -1. *)
Fixpoint indexOf_from (i : Z) (x : LogLevel) (l : list LogLevel) : Z :=
  match l with
  | [] => -1
  | y :: rest => if decide (y = x) then i else indexOf_from (i + 1) x rest
  end.

Definition indexOf (l : list LogLevel) (x : LogLevel) : Z := indexOf_from 0 x l.

(** A [LogMetadata] object: the bigint under the [LogTimestamp] symbol when
    there is one that is not nullish, the attributes under string keys, and
    those under other symbols. *)
Record LogMetadata := {
  log_timestamp : option Z;
  by_name : gmap string Value;
  by_symbol : gmap nat Value
}.

Record LogEntry := {
  entry_level : LogLevel;
  entry_message : string;
  entry_timestampNanos : Z;
  entry_meta : option LogMetadata
}.

Definition timeOfDayToBigint (timeOfDay : Z * Z) : Z :=
  let '(seconds, nanos) := timeOfDay in
  seconds * 1000000000 + nanos.

(** What [console.error] is handed. *)
Inductive ConsoleArg :=
| ArgDate (ms : Z)
| ArgText (s : string)
| ArgMeta (meta : LogMetadata).

Definition level_name (level : LogLevel) : string :=
  match level with
  | TRACE => "TRACE" | DEBUG => "DEBUG" | INFO => "INFO"
  | WARN => "WARN" | ERROR => "ERROR"
  end.

(** Division of bigints truncates. *)
Definition defaultLogFunction (entry : LogEntry) : list ConsoleArg :=
  let date := ArgDate (entry_timestampNanos entry ÷ 1000000) in
  match entry_meta entry with
  | None =>
      [date; ArgText ("[" +:+ level_name (entry_level entry) +:+ "]");
       ArgText (entry_message entry)]
  | Some meta =>
      [date; ArgText ("[" +:+ level_name (entry_level entry) +:+ "]");
       ArgText (entry_message entry); ArgMeta meta]
  end.

(** A [DefaultLogger]; [severity] is what its constructor computes. *)
Record DefaultLogger := { logger_level : LogLevel; severity : Z }.

Definition new_DefaultLogger (level : option LogLevel) : DefaultLogger :=
  let level := default INFO level in
  {| logger_level := level; severity := indexOf severities level |}.

(** [log], as the entry it hands to the log function, if any.  [timeOfDay]
    is what [getTimeOfDay()] would return. *)
Definition log (logger : DefaultLogger) (timeOfDay : Z * Z)
    (level : LogLevel) (message : string) (meta : option LogMetadata)
  : option LogEntry :=
  if severity logger <=? indexOf severities level then
    let meta := default {| log_timestamp := None; by_name := ∅; by_symbol := ∅ |} meta in
    let timestampNanos := log_timestamp meta in
    let rest := {| log_timestamp := None; by_name := by_name meta;
                   by_symbol := by_symbol meta |} in
    Some {| entry_level := level;
            entry_message := message;
            entry_meta :=
              if Nat.eqb (length (map_to_list (by_name rest)).*1) 0 then None
              else Some rest;
            entry_timestampNanos :=
              match timestampNanos with
              | Some t => t
              | None => timeOfDayToBigint timeOfDay
              end |}
  else None.

Definition log_trace logger timeOfDay message meta := log logger timeOfDay TRACE message meta.
Definition log_debug logger timeOfDay message meta := log logger timeOfDay DEBUG message meta.
Definition log_info logger timeOfDay message meta := log logger timeOfDay INFO message meta.
Definition log_warn logger timeOfDay message meta := log logger timeOfDay WARN message meta.
Definition log_error logger timeOfDay message meta := log logger timeOfDay ERROR message meta.

(** A host whose timer handler completes the workflow, and whose decoder
    reads the byte 2 as a job without a variant. *)
Definition completing_job (b : Byte.byte) : Job :=
  {| variant :=
       if Byte.eqb b Byte.x00 then Some queryWorkflow
       else if Byte.eqb b Byte.x02 then None
       else Some fireTimer;
     field := fun _ => VObject [("id", VStr "1")] |}.

Definition completing_decode (bytes : Uint8Array) : Activation :=
  {| timestamp := None;
     isReplaying := None;
     jobs := Some (map completing_job bytes) |}.

Definition completing_activator (v : JobVariant) (payload : Value) : M Z unit :=
  match v with
  | fireTimer =>
      modify (fun st =>
        set_completed true
          (set_commands
             (commands st ++ [otherCommand "completeWorkflowExecution" VUndefined]) st))
  | queryWorkflow =>
      modify (fun st =>
        set_commands (commands st ++ [otherCommand "respondToQuery" payload]) st)
  | _ => ret tt
  end.

Definition completing_host : Host :=
  {| Env := Z;
     tsToMs := tsToMs (Host := sample_host);
     msToTs := msToTs (Host := sample_host);
     decodeDelimited := completing_decode;
     encodeDelimited := encodeDelimited (Host := sample_host);
     applyReference := applyReference (Host := sample_host);
     activator := completing_activator;
     internals := [] |}.

Definition running_state : State (@Env completing_host) :=
  {| info := Some sample_info; now := 0; commands := [];
     nextSeqs := fun _ => 0; completions := fun _ => ∅;
     blockedConditions := []; pendingExternalCalls := []; dependencies := ∅;
     completed := false; promises := []; env := 0; calls := [] |}.

(** The functions a worker has registered: [api.get] answers 7 and
    [api.fail] throws. *)
Definition sample_dependencies : gmap string (gmap string (list Value -> HostOutcome)) :=
  {[ "api" := <[ "get" := fun _ => Returns (VNum 7) ]>
                {[ "fail" := fun _ => Throws (VError "Error" "boom") ]} ]}.

Definition sample_meta : LogMetadata :=
  {| log_timestamp := Some 1500000000;
     by_name := {[ "workflowId" := VStr "wf-1" ]};
     by_symbol := ∅ |}.

(** * Properties *)

Section Properties.
Context `{Host}.

Abbreviation State := (State Env).

Ltac run_m :=
  cbv [bind modify gets ret throw pushCommand next_seq set_completion
       delete_completion push_pendingExternalCall new_promise
       state_getAndResetPendingExternalCalls]; simpl.

Lemma upd_same {A} k (x : A) m : upd k x m k = x.
Proof. unfold upd. by rewrite decide_True. Qed.

Lemma upd_other {A} k k' (x : A) m : k <> k' -> upd k x m k' = m k'.
Proof. intros. unfold upd. by rewrite decide_False. Qed.

(** An interceptor chain in which nobody defines the method is the handler
    itself. *)
Lemma composeInterceptors_absent {X I O} (interceptors : list X)
    (method : X -> option (I -> (I -> M Env O) -> M Env O)) next :
  Forall (fun i => method i = None) interceptors ->
  composeInterceptors interceptors method next = next.
Proof.
  induction 1 as [|i l Hi _ IH]; simpl; [done|].
  rewrite Hi. exact IH.
Qed.

(** ** Forbidden globals *)

(** C9. Once [overrideGlobals] has run, constructing a [WeakMap], a [WeakSet]
    or a [WeakRef] throws a [DeterminismViolationError], whatever the
    arguments and the state, and leaves the state as it was. *)
Theorem weak_structures_throw (global : Globals Env) (args : list Value) (st : State) :
  WeakMap (overrideGlobals global) args st =
    Throw (DeterminismViolationError
             "WeakMap cannot be used in workflows because v8 GC is non-deterministic") st
  /\ WeakSet (overrideGlobals global) args st =
    Throw (DeterminismViolationError
             "WeakSet cannot be used in workflows because v8 GC is non-deterministic") st
  /\ WeakRef (overrideGlobals global) args st =
    Throw (DeterminismViolationError
             "WeakRef cannot be used in workflows because v8 GC is non-deterministic") st.
Proof. repeat split. Qed.

(** ** Timers *)

Lemma setTimeout_run (global : Globals Env) cb ms args (st : State) :
  setTimeout (overrideGlobals global) cb ms args st =
    Ok (nextSeqs st timer)
       (set_commands (commands st ++ [startTimer (nextSeqs st timer) (msToTs ms)])
          (set_completions
             (upd timer
                (<[nextSeqs st timer :=
                     {| resolve := FnCallback cb args; reject := FnIgnore |}]>
                   (completions st timer))
                (completions st))
             (set_nextSeqs (upd timer (nextSeqs st timer + 1) (nextSeqs st)) st))).
Proof. reflexivity. Qed.

Lemma clearTimeout_run (global : Globals Env) handle (st : State) :
  clearTimeout (overrideGlobals global) handle st =
    Ok tt
       (set_commands (commands st ++ [cancelTimer handle])
          (set_completions
             (upd timer (delete handle (completions st timer)) (completions st))
             (set_nextSeqs (upd timer (nextSeqs st timer + 1) (nextSeqs st)) st))).
Proof. reflexivity. Qed.

(** C7. [clearTimeout(h)] advances the timer counter by one, deletes the
    completion registered under [h], and appends [cancelTimer{seq: h}] to the
    command buffer.  It calls no registered function and settles no promise:
    the record of calls, the promises and the user heap are as before.  In
    particular, for the handle [h] that [setTimeout] has just returned, the
    buffer ends with [startTimer{seq: h}], [cancelTimer{seq: h}] and nothing
    is registered under [h] any more. *)
Theorem clearTimeout_cancels_silently (global : Globals Env) (st : State) :
  (forall handle, exists st',
      clearTimeout (overrideGlobals global) handle st = Ok tt st'
      /\ nextSeqs st' timer = nextSeqs st timer + 1
      /\ completions st' timer = delete handle (completions st timer)
      /\ completions st' timer !! handle = None
      /\ commands st' = commands st ++ [cancelTimer handle]
      /\ calls st' = calls st /\ promises st' = promises st /\ env st' = env st
      /\ blockedConditions st' = blockedConditions st
      /\ pendingExternalCalls st' = pendingExternalCalls st
      /\ now st' = now st /\ completed st' = completed st)
  /\ (forall cb ms args, exists h st1 st2,
      setTimeout (overrideGlobals global) cb ms args st = Ok h st1
      /\ completions st1 timer !! h =
           Some {| resolve := FnCallback cb args; reject := FnIgnore |}
      /\ clearTimeout (overrideGlobals global) h st1 = Ok tt st2
      /\ completions st2 timer !! h = None
      /\ commands st2 = commands st ++ [startTimer h (msToTs ms); cancelTimer h]
      /\ calls st2 = calls st /\ env st2 = env st).
Proof.
  split.
  - intros handle. eexists. split; [apply clearTimeout_run|]. simpl.
    rewrite !upd_same. repeat split; try done. apply lookup_delete_eq.
  - intros cb ms args. do 3 eexists.
    split; [apply setTimeout_run|].
    split; [simpl; rewrite upd_same; apply lookup_insert_eq|].
    split; [apply clearTimeout_run|]. simpl.
    rewrite !upd_same. repeat split; try done.
    + apply lookup_delete_eq.
    + by rewrite <- app_assoc.
Qed.

(** ** Dependency stubs *)

Lemma call_stub_async_run ifaceName fnName args (st : State) :
  call_stub (StubAsync ifaceName fnName) args st =
    Ok (RetPromise (length (promises st)))
       (set_pendingExternalCalls
          (pendingExternalCalls st ++
             [{| ifaceName := ifaceName; fnName := fnName; args := args;
                 call_seq := Some (nextSeqs st dependency) |}])
          (set_completions
             (upd dependency
                (<[nextSeqs st dependency :=
                     {| resolve := FnResolve (length (promises st));
                        reject := FnReject (length (promises st)) |}]>
                   (completions st dependency))
                (completions st))
             (set_nextSeqs (upd dependency (nextSeqs st dependency + 1) (nextSeqs st))
                (set_promises (promises st ++ [Pending]) st)))).
Proof. reflexivity. Qed.

Lemma call_stub_async_ignored_run ifaceName fnName args (st : State) :
  call_stub (StubAsyncIgnored ifaceName fnName) args st =
    Ok (RetValue (VNum (Z.of_nat (length (pendingExternalCalls st ++
             [{| ifaceName := ifaceName; fnName := fnName; args := args;
                 call_seq := None |}])))))
       (set_pendingExternalCalls
          (pendingExternalCalls st ++
             [{| ifaceName := ifaceName; fnName := fnName; args := args;
                 call_seq := None |}]) st).
Proof. reflexivity. Qed.

Lemma inject_lookup ifaceName fnName reference applyMode transferOptions (st : State) :
  exists st', inject ifaceName fnName reference applyMode transferOptions st = Ok tt st'
    /\ dependencies st' !! ifaceName ≫= (fun fns => fns !! fnName) =
         Some (match applyMode with
               | ASYNC => StubAsync ifaceName fnName
               | ASYNC_IGNORED => StubAsyncIgnored ifaceName fnName
               | _ => StubSync reference applyMode transferOptions
               end)
    /\ set_dependencies (dependencies st) st' = st.
Proof.
  unfold inject. run_m. eexists. split; [reflexivity|].
  split.
  - simpl. rewrite lookup_insert_eq. simpl. by rewrite lookup_insert_eq.
  - destruct (dependencies st !! ifaceName); by destruct st.
Qed.

(** C8. The stub that [inject] installs for [ASYNC_IGNORED] appends
    [{ifaceName, fnName, args}] without a [seq] to the pending external calls
    and registers no completion, but it does not return nothing: it returns
    what [push] returns, the new length of the list, a number that is at
    least 1. *)
Theorem async_ignored_stub_returns_length
    ifaceName fnName reference transferOptions args (st : State) :
  exists st1 st2 n,
    inject ifaceName fnName reference ASYNC_IGNORED transferOptions st = Ok tt st1
    /\ call_dependency ifaceName fnName args st1 = Ok (RetValue (VNum n)) st2
    /\ n = Z.of_nat (length (pendingExternalCalls st)) + 1
    /\ RetValue (VNum n) <> RetValue VUndefined
    /\ pendingExternalCalls st2 =
         pendingExternalCalls st ++
           [{| ifaceName := ifaceName; fnName := fnName; args := args; call_seq := None |}]
    /\ completions st2 = completions st
    /\ nextSeqs st2 = nextSeqs st
    /\ promises st2 = promises st.
Proof.
  destruct (inject_lookup ifaceName fnName reference ASYNC_IGNORED transferOptions st)
    as (st1 & Hrun & Hstub & Hframe).
  exists st1. eexists. eexists. split; [exact Hrun|].
  unfold call_dependency. rewrite Hstub, call_stub_async_ignored_run.
  split; [reflexivity|].
  rewrite <- Hframe. simpl.
  repeat split; try done.
  rewrite length_app. simpl. lia.
Qed.

(** ** Concluding an activation *)

Lemma set_pendingExternalCalls_id (st : State) :
  pendingExternalCalls st = [] -> set_pendingExternalCalls [] st = st.
Proof. destruct st; simpl; by intros ->. Qed.

Lemma concludeActivation_pending_run (st : State) :
  pendingExternalCalls st <> [] ->
  concludeActivation st =
    Ok (pending (pendingExternalCalls st) (Z.of_nat (length (blockedConditions st))))
       (set_pendingExternalCalls [] st).
Proof.
  intros Hne. unfold concludeActivation. run_m.
  destruct (pendingExternalCalls st) as [|c l]; [done|reflexivity].
Qed.

Lemma concludeActivation_complete_run (st : State) :
  pendingExternalCalls st = [] ->
  concludeActivation st =
    match composeInterceptors internals on_concludeActivation (fun input => ret input)
            {| input_commands := commands st |} st with
    | Ok out st1 =>
        Ok (complete (encodeDelimited (runId <$> info st) (input_commands out)))
           (set_commands [] st1)
    | Throw e st1 => Throw e st1
    end.
Proof.
  intros Hnil. unfold concludeActivation. run_m.
  rewrite Hnil. simpl. rewrite (set_pendingExternalCalls_id st Hnil).
  by destruct (composeInterceptors _ _ _ _ _).
Qed.

Lemma concludeActivation_final_state (st : State) :
  Forall (fun i => on_concludeActivation i = None) internals ->
  final_state (concludeActivation st) = set_pendingExternalCalls [] st
  \/ final_state (concludeActivation st) = set_commands [] st.
Proof.
  intros Hnone. destruct (pendingExternalCalls st) as [|c l] eqn:Hcalls.
  - right. rewrite (concludeActivation_complete_run st Hcalls).
    by rewrite (composeInterceptors_absent _ _ _ Hnone).
  - left. by rewrite concludeActivation_pending_run by (by rewrite Hcalls).
Qed.

(** C3. [concludeActivation] returns a [pending] conclusion exactly when the
    list of pending external calls is not empty at entry, and that
    conclusion carries the drained list and the number of blocked
    conditions.  With an empty list it passes the command buffer through the
    interceptors of [concludeActivation] and, unless one of them throws,
    returns [complete] with the commands they hand back, encoded with the
    run id; without such interceptors these are the buffered commands.
    After every [complete] return the command buffer is empty. *)
Theorem concludeActivation_pending_iff_calls (st : State) :
  (pendingExternalCalls st <> [] ->
     concludeActivation st =
       Ok (pending (pendingExternalCalls st) (Z.of_nat (length (blockedConditions st))))
          (set_pendingExternalCalls [] st))
  /\ (forall drained n st', concludeActivation st = Ok (pending drained n) st' ->
        pendingExternalCalls st <> [])
  /\ (pendingExternalCalls st = [] ->
        forall r st', concludeActivation st = Ok r st' ->
        exists out st1,
          composeInterceptors internals on_concludeActivation (fun input => ret input)
            {| input_commands := commands st |} st = Ok out st1
          /\ r = complete (encodeDelimited (runId <$> info st) (input_commands out))
          /\ commands st' = [])
  /\ (pendingExternalCalls st = [] ->
        Forall (fun i => on_concludeActivation i = None) internals ->
        concludeActivation st =
          Ok (complete (encodeDelimited (runId <$> info st) (commands st)))
             (set_commands [] st))
  /\ (forall encoded st', concludeActivation st = Ok (complete encoded) st' ->
        commands st' = [] /\ pendingExternalCalls st = []).
Proof.
  split; [apply concludeActivation_pending_run|].
  split.
  { intros l n st' Hrun Hnil.
    rewrite (concludeActivation_complete_run st Hnil) in Hrun.
    by destruct (composeInterceptors _ _ _ _ _). }
  split.
  { intros Hnil r st' Hrun.
    rewrite (concludeActivation_complete_run st Hnil) in Hrun.
    destruct (composeInterceptors _ _ _ _ _) as [out st1|e st1]; [|done].
    injection Hrun as <- <-. by exists out, st1. }
  split.
  { intros Hnil Hnone.
    rewrite (concludeActivation_complete_run st Hnil).
    by rewrite (composeInterceptors_absent _ _ _ Hnone). }
  intros encoded st' Hrun.
  destruct (pendingExternalCalls st) as [|c l] eqn:Hcalls.
  - rewrite (concludeActivation_complete_run st Hcalls) in Hrun.
    destruct (composeInterceptors _ _ _ _ _) as [out st1|e st1]; [|done].
    by injection Hrun as <- <-.
  - rewrite concludeActivation_pending_run in Hrun by (by rewrite Hcalls).
    done.
Qed.

(** C10. When [concludeActivation] returns a [pending] conclusion, the state
    it leaves is the state at entry with the list of pending external calls
    emptied; the list it returns is the one that was drained.  The command
    buffer, the completion registries, the sequence counters and the blocked
    conditions are those at entry. *)
Theorem concludeActivation_pending_frame (st st' : State) drained n :
  concludeActivation st = Ok (pending drained n) st' ->
  st' = set_pendingExternalCalls [] st
  /\ drained = pendingExternalCalls st
  /\ drained <> []
  /\ pendingExternalCalls st' = []
  /\ commands st' = commands st
  /\ completions st' = completions st
  /\ nextSeqs st' = nextSeqs st
  /\ blockedConditions st' = blockedConditions st.
Proof.
  intros Hrun.
  destruct (pendingExternalCalls st) as [|c l] eqn:Hcalls.
  - rewrite (concludeActivation_complete_run st Hcalls) in Hrun.
    by destruct (composeInterceptors _ _ _ _ _).
  - rewrite concludeActivation_pending_run in Hrun by (by rewrite Hcalls).
    injection Hrun as <- <- <-. by rewrite Hcalls.
Qed.

(** ** Results of external dependency calls *)

Lemma settle_pending p s (st : State) :
  promises st !! p = Some Pending ->
  promises (settle p s st) !! p = Some s.
Proof.
  intros Hp. unfold settle. rewrite Hp. simpl.
  apply list_lookup_insert_eq. by eapply lookup_lt_Some.
Qed.

Lemma resolveExternalDependencies_unknown r rest (st : State) :
  completions st dependency !! seq r = None ->
  resolveExternalDependencies (r :: rest) st =
    Throw (IllegalStateError "No completion for the given kind and sequence") st.
Proof.
  intros Hnone. simpl. unfold bind at 1. unfold consumeCompletion. by rewrite Hnone.
Qed.

Lemma resolveExternalDependencies_known r c (st : State) :
  completions st dependency !! seq r = Some c ->
  resolveExternalDependencies [r] st =
    (if truthy (error r) then call_fn (reject c) (error r)
     else call_fn (resolve c) (result r))
      (set_completions
         (upd dependency (delete (seq r) (completions st dependency)) (completions st))
         st).
Proof.
  intros Hc. simpl. unfold bind at 1. unfold consumeCompletion. rewrite Hc.
  unfold bind, ret.
  match goal with |- match ?x with _ => _ end = _ => by destruct x as [[] ?|] end.
Qed.

(** C4 (as amended). A call through an [ASYNC] stub allocates the next
    dependency sequence [s], registers the two functions of a fresh pending
    promise under it and tags the queued call with [s].  While that
    registration stands, [resolveExternalDependencies([{seq: s, result,
    error}])] consumes it and fulfils the promise with [result] when [error]
    is falsy (absent, in particular), and rejects the promise with [error]
    when [error] is truthy.  With a [seq] under which no dependency
    completion is registered it throws an [IllegalStateError]. *)
Theorem resolveExternalDependencies_settles (st : State) :
  (forall ifaceName fnName args, exists p st1,
      call_stub (StubAsync ifaceName fnName) args st = Ok (RetPromise p) st1
      /\ awaits_dependency st1 (nextSeqs st dependency) p
      /\ last (pendingExternalCalls st1) =
           Some {| ifaceName := ifaceName; fnName := fnName; args := args;
                   call_seq := Some (nextSeqs st dependency) |})
  /\ (forall s p r, awaits_dependency st s p -> seq r = s ->
        truthy (error r) = false ->
        exists st', resolveExternalDependencies [r] st = Ok tt st'
          /\ promises st' !! p = Some (Fulfilled (result r))
          /\ completions st' dependency !! s = None
          /\ calls st' = calls st ++ [CallFn (FnResolve p) (result r)])
  /\ (forall s p r, awaits_dependency st s p -> seq r = s ->
        truthy (error r) = true ->
        exists st', resolveExternalDependencies [r] st = Ok tt st'
          /\ promises st' !! p = Some (Rejected (error r))
          /\ completions st' dependency !! s = None
          /\ calls st' = calls st ++ [CallFn (FnReject p) (error r)])
  /\ (forall r rest, completions st dependency !! seq r = None ->
        exists message,
          resolveExternalDependencies (r :: rest) st =
            Throw (IllegalStateError message) st).
Proof.
  split.
  { intros i f a. do 2 eexists. split; [apply call_stub_async_run|].
    split; [split|]; simpl.
    - rewrite upd_same. apply lookup_insert_eq.
    - by rewrite lookup_app_r, Nat.sub_diag.
    - apply last_snoc. }
  split.
  { intros s p r [Hc Hp] <- Hfalsy.
    rewrite (resolveExternalDependencies_known r _ st Hc), Hfalsy.
    eexists. split; [reflexivity|]. simpl.
    split; [by apply settle_pending|].
    unfold settle. simpl. rewrite Hp. simpl. rewrite upd_same.
    split; [apply lookup_delete_eq|done]. }
  split.
  { intros s p r [Hc Hp] <- Htruthy.
    rewrite (resolveExternalDependencies_known r _ st Hc), Htruthy.
    eexists. split; [reflexivity|]. simpl.
    split; [by apply settle_pending|].
    unfold settle. simpl. rewrite Hp. simpl. rewrite upd_same.
    split; [apply lookup_delete_eq|done]. }
  intros r rest Hnone. eexists. by apply resolveExternalDependencies_unknown.
Qed.

(** ** Blocked conditions *)

Lemma same_bookkeeping_refl (st : State) : same_bookkeeping st st.
Proof. by repeat split. Qed.

Lemma same_bookkeeping_trans (st1 st2 st3 : State) :
  same_bookkeeping st1 st2 -> same_bookkeeping st2 st3 -> same_bookkeeping st1 st3.
Proof.
  unfold same_bookkeeping. intros (?&?&?&?&?&?&?&?) (?&?&?&?&?&?&?&?).
  repeat split; congruence.
Qed.

Lemma call_fn_run f v (st : State) :
  exists st', call_fn f v st = Ok tt st'
    /\ calls st' = calls st ++ [CallFn f v]
    /\ blockedConditions st' = blockedConditions st
    /\ same_bookkeeping st st'
    /\ env st' = fn_effect f v (env st).
Proof.
  destruct f; simpl; run_m; eexists; (split; [reflexivity|]);
    unfold settle; simpl;
    try (destruct (promises st !! p) as [[]|]; simpl);
    by repeat split.
Qed.

Lemma fn_effect_settles_only f v (user : Env) :
  settles_only f = true -> fn_effect f v user = user.
Proof. by destruct f. Qed.

Lemma held_in_turn_app (user : Env) removed1 removed2 :
  held_in_turn user (removed1 ++ removed2) <->
  held_in_turn user removed1 /\ held_in_turn (heap_after removed1 user) removed2.
Proof.
  revert user. induction removed1 as [|e removed1 IH]; intros user; simpl.
  - tauto.
  - rewrite IH. tauto.
Qed.

Lemma filter_keeps_all {A} (P : A -> Prop) `{!forall x, Decision (P x)} (l : list A) :
  Forall P l -> filter P l = l.
Proof.
  induction 1 as [|x l Hx _ IH]; [done|].
  by rewrite filter_cons_True, IH.
Qed.

Lemma filter_key_middle (kept rest : list (Z * Condition Env)) s c :
  NoDup (kept ++ (s, c) :: rest).*1 ->
  filter (fun e => e.1 <> s) (kept ++ (s, c) :: rest) = kept ++ rest.
Proof.
  rewrite fmap_app, fmap_cons. intros Hnd.
  apply NoDup_app in Hnd as (_ & Hdisj & Hnd).
  apply NoDup_cons in Hnd as (Hs & _). simpl in *.
  rewrite filter_app, filter_cons_False by (simpl; tauto).
  f_equal; apply filter_keeps_all, Forall_forall; intros [s' c'] Hin; simpl; intros ->.
  - apply (Hdisj s); [|left]. apply (list_elem_of_fmap_2 fst _ _ Hin).
  - apply Hs. apply (list_elem_of_fmap_2 fst _ _ Hin).
Qed.

(** One pass, started on the tail [entries] of the map: [removed] are the
    entries it unblocks, in order, and [rest] the ones it keeps. *)
Lemma unblock_entries_run entries : forall n (st : State) kept,
  blockedConditions st = kept ++ entries ->
  NoDup (kept ++ entries).*1 ->
  exists removed rest st',
    unblock_entries entries n st = Ok (n + Z.of_nat (length removed)) st'
    /\ blockedConditions st' = kept ++ rest
    /\ Permutation entries (rest ++ removed)
    /\ sublist rest entries
    /\ calls st' = calls st ++ map resolver_call removed
    /\ same_bookkeeping st st'
    /\ (removed = [] -> st' = st)
    /\ (removed = [] <-> Forall (fun e => holds e (env st) = false) entries)
    /\ held_in_turn (env st) removed
    /\ env st' = heap_after removed (env st)
    /\ (Forall (fun e => settles_only (cond_resolve e.2) = true) entries ->
        rest = filter (fun e => holds e (env st) = false) entries
        /\ removed = filter (fun e => holds e (env st) = true) entries).
Proof.
  induction entries as [|[s c] entries IH]; intros n st kept Hmap Hnd.
  - exists [], [], st. simpl. rewrite Z.add_0_r, !app_nil_r.
    repeat split; try done. by rewrite Hmap, app_nil_r.
  - simpl. unfold bind at 1. unfold gets at 1.
    destruct (fn c (env st)) eqn:Hfn.
    + destruct (call_fn_run (cond_resolve c) VUndefined st)
        as (st1 & Hcall & Hcalls1 & Hmap1 & Hframe1 & Henv1).
      unfold bind at 1. rewrite Hcall.
      unfold bind at 1. unfold delete_blockedCondition, modify.
      set (st2 := set_blockedConditions _ st1).
      assert (Hmap2 : blockedConditions st2 = kept ++ entries).
      { subst st2. simpl. rewrite Hmap1, Hmap. by apply filter_key_middle. }
      assert (Hnd2 : NoDup (kept ++ entries).*1).
      { revert Hnd. rewrite !fmap_app, fmap_cons.
        intros Hnd. apply NoDup_app in Hnd as (Hk & Hdisj & Hrest).
        apply NoDup_cons in Hrest as (_ & Hrest).
        apply NoDup_app. repeat split; try done.
        intros x Hx Hx'. apply (Hdisj x Hx). by right. }
      destruct (IH (n + 1) st2 kept Hmap2 Hnd2)
        as (removed & rest & st' & Hrun & Hmap' & Hperm & Hsub & Hcalls & Hframe
            & Hid & Hnone & Hturn & Henv & Hinert).
      assert (Henv2 : env st2 = fn_effect (cond_resolve c) VUndefined (env st))
        by (subst st2; simpl; auto).
      exists ((s, c) :: removed), rest, st'.
      split. { rewrite Hrun. f_equal. simpl length. lia. }
      split; [done|].
      split. { rewrite <- Permutation_middle. by constructor. }
      split. { by apply sublist_cons. }
      split. { rewrite Hcalls. subst st2. simpl. rewrite Hcalls1.
               by rewrite <- app_assoc. }
      split. { eapply same_bookkeeping_trans; [exact Hframe1|].
               eapply same_bookkeeping_trans; [|exact Hframe].
               subst st2. unfold same_bookkeeping. by simpl. }
      split; [done|].
      split. { split; [done|]. intros Hall. apply Forall_cons in Hall as [Hc _].
               unfold holds in Hc. simpl in Hc. congruence. }
      split. { simpl. split; [done|]. by rewrite <- Henv2. }
      split. { simpl. by rewrite <- Henv2. }
      intros Hall. apply Forall_cons in Hall as [Hc Hall]. simpl in Hc.
      destruct (Hinert Hall) as (Hrest & Hremoved).
      rewrite Henv2, (fn_effect_settles_only _ _ _ Hc) in Hrest, Hremoved.
      rewrite filter_cons_False by (unfold holds; simpl; congruence).
      rewrite filter_cons_True by (unfold holds; simpl; congruence).
      split; congruence.
    + destruct (IH n st (kept ++ [(s, c)])) as
        (removed & rest & st' & Hrun & Hmap' & Hperm & Hsub & Hcalls & Hframe
         & Hid & Hnone & Hturn & Henv & Hinert).
      { by rewrite <- app_assoc. }
      { by rewrite <- app_assoc. }
      exists removed, ((s, c) :: rest), st'.
      split; [done|].
      split. { by rewrite Hmap', <- app_assoc. }
      split. { simpl. by constructor. }
      split. { by apply sublist_skip. }
      split; [done|]. split; [done|]. split; [done|].
      split. { rewrite Hnone. split.
               - intros Hall. by constructor.
               - intros Hall. by apply Forall_cons in Hall as [_ Hall]. }
      split; [done|]. split; [done|].
      intros Hall. apply Forall_cons in Hall as [_ Hall].
      destruct (Hinert Hall) as (Hrest & Hremoved).
      rewrite filter_cons_True by (unfold holds; simpl; congruence).
      rewrite filter_cons_False by (unfold holds; simpl; congruence).
      split; congruence.
Qed.

Lemma unblock_pass_run n (st : State) :
  NoDup (blockedConditions st).*1 ->
  exists removed st',
    unblock_pass n st = Ok (n + Z.of_nat (length removed)) st'
    /\ Permutation (blockedConditions st) (blockedConditions st' ++ removed)
    /\ sublist (blockedConditions st') (blockedConditions st)
    /\ calls st' = calls st ++ map resolver_call removed
    /\ same_bookkeeping st st'
    /\ (removed = [] -> st' = st)
    /\ (removed = [] <->
        Forall (fun e => holds e (env st) = false) (blockedConditions st))
    /\ held_in_turn (env st) removed
    /\ env st' = heap_after removed (env st)
    /\ (Forall (fun e => settles_only (cond_resolve e.2) = true) (blockedConditions st) ->
        blockedConditions st' =
          filter (fun e => holds e (env st) = false) (blockedConditions st)
        /\ removed = filter (fun e => holds e (env st) = true) (blockedConditions st)).
Proof.
  intros Hnd. unfold unblock_pass.
  destruct (unblock_entries_run (blockedConditions st) n st [] eq_refl Hnd)
    as (removed & rest & st' & Hrun & Hmap & Hperm & Hsub & Hcalls & Hframe
        & Hid & Hnone & Hturn & Henv & Hinert).
  simpl in Hmap. exists removed, st'. rewrite Hmap.
  do 9 (split; [done|]). exact Hinert.
Qed.

Lemma NoDup_keys_perm (l k r : list (Z * Condition Env)) :
  Permutation l (k ++ r) -> NoDup l.*1 -> NoDup k.*1.
Proof.
  intros Hperm Hnd. rewrite Hperm, fmap_app in Hnd.
  by apply NoDup_app in Hnd as (? & _ & _).
Qed.

Lemma heap_after_settles_only (removed : list (Z * Condition Env)) (user : Env) :
  Forall (fun e => settles_only (cond_resolve e.2) = true) removed ->
  heap_after removed user = user.
Proof.
  induction 1 as [|e removed He _ IH]; simpl; [done|].
  by rewrite (fn_effect_settles_only _ _ _ He).
Qed.

(** The outer loop, given more passes than there are entries. *)
Lemma unblock_loop_run passes : forall n (st : State),
  NoDup (blockedConditions st).*1 ->
  (length (blockedConditions st) < passes)%nat ->
  exists removed st',
    unblock_loop passes n st = Ok (n + Z.of_nat (length removed)) st'
    /\ Permutation (blockedConditions st) (blockedConditions st' ++ removed)
    /\ sublist (blockedConditions st') (blockedConditions st)
    /\ calls st' = calls st ++ map resolver_call removed
    /\ same_bookkeeping st st'
    /\ (removed = [] -> st' = st)
    /\ (removed = [] <->
        Forall (fun e => holds e (env st) = false) (blockedConditions st))
    /\ Forall (fun e => holds e (env st') = false) (blockedConditions st')
    /\ held_in_turn (env st) removed
    /\ env st' = heap_after removed (env st)
    /\ (Forall (fun e => settles_only (cond_resolve e.2) = true) (blockedConditions st) ->
        blockedConditions st' =
          filter (fun e => holds e (env st) = false) (blockedConditions st)
        /\ removed = filter (fun e => holds e (env st) = true) (blockedConditions st)).
Proof.
  induction passes as [|passes IH]; intros n st Hnd Hlen; [lia|].
  simpl. unfold bind at 1.
  destruct (unblock_pass_run n st Hnd)
    as (removed1 & st1 & Hrun1 & Hperm1 & Hsub1 & Hcalls1 & Hframe1 & Hid1
        & Hnone1 & Hturn1 & Henv1 & Hinert1).
  rewrite Hrun1.
  destruct removed1 as [|e removed1].
  - simpl. rewrite Z.add_0_r, Z.eqb_refl.
    assert (st1 = st) as -> by auto.
    exists [], st. simpl. rewrite Z.add_0_r, !app_nil_r.
    do 4 (split; [done|]).
    split; [apply same_bookkeeping_refl|].
    split; [done|].
    split; [exact Hnone1|].
    split; [by apply Hnone1|].
    do 2 (split; [done|]).
    exact Hinert1.
  - set (removed := e :: removed1) in *.
    assert (Hpos : (0 < length removed)%nat) by (simpl; lia).
    destruct (Z.eqb_spec n (n + Z.of_nat (length removed))) as [Heq|_]; [lia|].
    assert (Hlen1 : (length (blockedConditions st1) < passes)%nat).
    { apply Permutation_length in Hperm1. rewrite length_app in Hperm1. lia. }
    destruct (IH (n + Z.of_nat (length removed)) st1
                (NoDup_keys_perm _ _ _ Hperm1 Hnd) Hlen1)
      as (removed2 & st2 & Hrun2 & Hperm2 & Hsub2 & Hcalls2 & Hframe2 & Hid2
          & Hnone2 & Hfix2 & Hturn2 & Henv2 & Hinert2).
    exists (removed ++ removed2), st2.
    split. { rewrite Hrun2. f_equal. rewrite length_app. lia. }
    split. { rewrite Hperm1, Hperm2. rewrite <- !app_assoc.
             apply Permutation_app_head, Permutation_app_comm. }
    split. { by etrans. }
    split. { by rewrite Hcalls2, Hcalls1, map_app, app_assoc. }
    split. { by eapply same_bookkeeping_trans. }
    split. { intros Hnil. by apply app_eq_nil in Hnil as [? _]. }
    split. { split.
             - intros Hnil. by apply app_eq_nil in Hnil as [? _].
             - intros Hall. by apply Hnone1 in Hall. }
    split; [done|].
    split. { apply held_in_turn_app. split; [done|]. by rewrite <- Henv1. }
    split. { unfold heap_after. rewrite foldl_app. fold (heap_after removed (env st)).
             by rewrite <- Henv1. }
    intros Hall. destruct (Hinert1 Hall) as (Hrest1 & Hremoved1).
    assert (Hsame : env st1 = env st).
    { rewrite Henv1. apply heap_after_settles_only.
      rewrite Hremoved1. apply Forall_forall. intros x Hx.
      apply list_elem_of_filter in Hx as [_ Hx].
      rewrite Forall_forall in Hall. by apply Hall. }
    assert (Hquiet : Forall (fun e => holds e (env st1) = false) (blockedConditions st1)).
    { rewrite Hsame, Hrest1. apply Forall_forall. intros x Hx.
      by apply list_elem_of_filter in Hx as [? _]. }
    apply Hnone2 in Hquiet as ->.
    assert (st2 = st1) as -> by auto.
    rewrite app_nil_r. by split.
Qed.

(** More passes than entries never change the result: the bound in
    [tryUnblockConditions] cuts nothing off. *)
Lemma unblock_loop_passes passes (st : State) :
  NoDup (blockedConditions st).*1 ->
  (length (blockedConditions st) < passes)%nat ->
  unblock_loop passes 0 st = tryUnblockConditions st.
Proof.
  assert (Hgen : forall p1 p2 k (s : State), NoDup (blockedConditions s).*1 ->
            (length (blockedConditions s) < p1)%nat ->
            (length (blockedConditions s) < p2)%nat ->
            unblock_loop p1 k s = unblock_loop p2 k s).
  { induction p1 as [|p1 IH]; intros p2 k s Hnd H1 H2; [lia|].
    destruct p2 as [|p2]; [lia|]. simpl. unfold bind.
    destruct (unblock_pass_run k s Hnd)
      as (removed & s1 & Hrun & Hperm & _).
    rewrite Hrun.
    destruct (Z.eqb_spec k (k + Z.of_nat (length removed))) as [Heq|Hne]; [done|].
    assert ((length (blockedConditions s1) < length (blockedConditions s))%nat).
    { apply Permutation_length in Hperm. rewrite length_app in Hperm. lia. }
    apply IH; [by eapply NoDup_keys_perm|lia|lia]. }
  intros Hnd Hlen. unfold tryUnblockConditions. apply Hgen; [done|done|lia].
Qed.

(** C6. On a map of blocked conditions (keys distinct, as in a [Map]),
    [tryUnblockConditions] returns.  It removes a list [removed] of entries
    and keeps the others in their order; each removed entry is one whose
    predicate held when its turn came, its resolver is called once, and no
    other call is made; the number returned is the number of removed entries.
    It stops at a fixed point: no predicate that is left holds on the final
    user heap.  It returns 0 exactly when no registered predicate holds at
    entry.  When the resolvers only settle promises, the removed entries are
    exactly those whose predicate holds at entry.  The bound on the number of
    passes is never reached: any larger bound gives the same result. *)
Theorem tryUnblockConditions_fixed_point (st : State) :
  NoDup (blockedConditions st).*1 ->
  exists removed st',
    tryUnblockConditions st = Ok (Z.of_nat (length removed)) st'
    /\ Permutation (blockedConditions st) (blockedConditions st' ++ removed)
    /\ sublist (blockedConditions st') (blockedConditions st)
    /\ calls st' = calls st ++ map resolver_call removed
    /\ same_bookkeeping st st'
    /\ held_in_turn (env st) removed
    /\ env st' = heap_after removed (env st)
    /\ Forall (fun e => holds e (env st') = false) (blockedConditions st')
    /\ (Z.of_nat (length removed) = 0 <->
        Forall (fun e => holds e (env st) = false) (blockedConditions st))
    /\ (Forall (fun e => settles_only (cond_resolve e.2) = true) (blockedConditions st) ->
        blockedConditions st' =
          filter (fun e => holds e (env st) = false) (blockedConditions st)
        /\ removed = filter (fun e => holds e (env st) = true) (blockedConditions st))
    /\ (forall passes, (length (blockedConditions st) < passes)%nat ->
        unblock_loop passes 0 st = tryUnblockConditions st).
Proof.
  intros Hnd.
  destruct (unblock_loop_run (S (length (blockedConditions st))) 0 st Hnd)
    as (removed & st' & Hrun & Hperm & Hsub & Hcalls & Hframe & Hid & Hnone
        & Hfix & Hturn & Henv & Hinert); [lia|].
  exists removed, st'. unfold tryUnblockConditions at 1.
  rewrite Hrun, Z.add_0_l.
  do 8 (split; [done|]).
  split.
  { split.
    - intros Hzero. apply Hnone. destruct removed; [done|simpl in Hzero; lia].
    - intros Hall. by apply Hnone in Hall as ->. }
  split; [exact Hinert|].
  intros passes Hlen. by apply unblock_loop_passes.
Qed.

(** ** Activations *)

(** Whatever the map looks like, unblocking returns and touches nothing but
    the blocked conditions, the promises, the user heap and the record of
    calls. *)
Lemma unblock_entries_bookkeeping entries : forall n (st : State),
  exists n' st', unblock_entries entries n st = Ok n' st' /\ same_bookkeeping st st'.
Proof.
  induction entries as [|[s c] entries IH]; intros n st.
  - exists n, st. split; [done|apply same_bookkeeping_refl].
  - simpl. unfold bind at 1. unfold gets at 1.
    destruct (fn c (env st)).
    + destruct (call_fn_run (cond_resolve c) VUndefined st)
        as (st1 & Hcall & _ & _ & Hframe1 & _).
      unfold bind at 1. rewrite Hcall.
      unfold bind at 1. unfold delete_blockedCondition, modify.
      set (st2 := set_blockedConditions _ st1).
      destruct (IH (n + 1) st2) as (n' & st' & Hrun & Hframe).
      exists n', st'. split; [done|].
      eapply same_bookkeeping_trans; [exact Hframe1|].
      eapply same_bookkeeping_trans; [|exact Hframe].
      subst st2. unfold same_bookkeeping. by simpl.
    + apply IH.
Qed.

Lemma unblock_loop_bookkeeping passes : forall n (st : State),
  exists n' st', unblock_loop passes n st = Ok n' st' /\ same_bookkeeping st st'.
Proof.
  induction passes as [|passes IH]; intros n st.
  - exists n, st. split; [done|apply same_bookkeeping_refl].
  - simpl. unfold bind, unblock_pass.
    destruct (unblock_entries_bookkeeping (blockedConditions st) n st)
      as (n1 & st1 & -> & Hframe1).
    destruct (n =? n1).
    + by exists n1, st1.
    + destruct (IH n1 st1) as (n' & st' & Hrun & Hframe).
      exists n', st'. split; [done|]. by eapply same_bookkeeping_trans.
Qed.

Lemma tryUnblockConditions_bookkeeping (st : State) :
  exists n st', tryUnblockConditions st = Ok n st' /\ same_bookkeeping st st'.
Proof. apply unblock_loop_bookkeeping. Qed.

Lemma resume_jobs_bookkeeping statuses : forall st : State,
  same_bookkeeping st (resume_jobs statuses st).
Proof.
  induction statuses as [|[] statuses IH]; intros st; simpl; try apply IH.
  - apply same_bookkeeping_refl.
  - destruct (tryUnblockConditions_bookkeeping st) as (n & st' & -> & Hframe).
    simpl. by eapply same_bookkeeping_trans.
Qed.


Section ClockOfHandlers.
(** The handlers of the activator do not write [state.now]. *)
Hypothesis activator_keeps_now :
  forall v payload (st : State), now (final_state (activator v payload st)) = now st.

Lemma start_job_now job (st : State) : now (start_job job st).2 = now st.
Proof.
  unfold start_job. destruct (variant job) as [v|]; [|done].
  destruct (negb _); [done|]. destruct (_ && _); [done|].
  specialize (activator_keeps_now v (field job v)
                (set_calls (calls st ++ [CallHandler v (field job v)]) st)).
  by destruct (activator _ _ _).
Qed.

Lemma start_jobs_now jobs : forall st : State, now (start_jobs jobs st).2 = now st.
Proof.
  induction jobs as [|job jobs IH]; intros st; simpl; [done|].
  pose proof (start_job_now job st) as Hjob.
  destruct (start_job job st) as [s st1].
  specialize (IH st1). destruct (start_jobs jobs st1) as [ss st2].
  simpl in *. congruence.
Qed.

Lemma activate_handler_now input (st : State) :
  now (final_state (activate_handler input st)) =
    if input_batchIndex input =? 0 then
      match info st, jobs (input_activation input), timestamp (input_activation input) with
      | Some _, Some _, Some ts => tsToMs ts
      | _, _, _ => now st
      end
    else now st.
Proof.
  unfold activate_handler.
  destruct (jobs (input_activation input)) as [js|].
  - assert (Hjobs : forall st0 : State,
              now (final_state
                     (let '(statuses, st1) := start_jobs js st0 in
                      let st2 := resume_jobs statuses st1 in
                      match first_rejection statuses with
                      | Some e => Throw e st2
                      | None => Ok tt st2
                      end)) = now st0).
    { intros st0. pose proof (start_jobs_now js st0) as Hstart.
      destruct (start_jobs js st0) as [statuses st1]. simpl in *.
      destruct (resume_jobs_bookkeeping statuses st1) as (_ & Hnow & _).
      destruct (first_rejection statuses); simpl; congruence. }
    unfold bind. destruct (input_batchIndex input =? 0).
    + destruct (info st) as [i|]; [|done]. rewrite Hjobs.
      by destruct (timestamp (input_activation input)).
    + unfold ret. apply Hjobs.
  - unfold bind. destruct (input_batchIndex input =? 0); [|done].
    by destruct (info st).
Qed.

End ClockOfHandlers.

Lemma activate_final_state encodedActivation batchIndex (st : State) :
  Forall (fun i => on_activate i = None) internals ->
  let input := {| input_activation := decodeDelimited encodedActivation;
                  input_batchIndex := batchIndex |} in
  match activate_handler input st with
  | Ok _ st1 =>
      activate encodedActivation batchIndex st =
        Ok {| externalCalls := pendingExternalCalls st1;
              numBlockedConditions := Z.of_nat (length (blockedConditions st1)) |}
           (set_pendingExternalCalls [] st1)
  | Throw e st1 => activate encodedActivation batchIndex st = Throw e st1
  end.
Proof.
  intros Hnone. simpl. unfold activate.
  rewrite (composeInterceptors_absent _ _ _ Hnone). unfold bind.
  by destruct (activate_handler _ st).
Qed.

Lemma activate_handler_returns input (st : State) st' :
  activate_handler input st = Ok tt st' ->
  input_batchIndex input = 0 ->
  is_Some (info st) /\ is_Some (jobs (input_activation input)).
Proof.
  unfold activate_handler, bind. intros Hrun Hidx. rewrite Hidx in Hrun.
  simpl in Hrun. destruct (info st); [|done].
  by destruct (jobs (input_activation input)).
Qed.

(** C1. Let no interceptor wrap [activate] and let the handlers leave
    [state.now] alone.  When the activation carries a timestamp [T] and
    [activate(A, 0)] returns, the clock has been set from it: [state.now] is
    [tsToMs(T)], which is what [Date.now()] returns and what a [Date]
    constructed without arguments is built from.  When the activation carries
    no timestamp, or [batchIndex] is not 0, [activate] leaves [state.now] as
    it was, whether it returns or throws. *)
Theorem activate_sets_clock encodedActivation batchIndex (st : State) :
  Forall (fun i => on_activate i = None) internals ->
  (forall v payload (s : State), now (final_state (activator v payload s)) = now s) ->
  (forall T r st' global,
      timestamp (decodeDelimited encodedActivation) = Some T ->
      batchIndex = 0 ->
      activate encodedActivation batchIndex st = Ok r st' ->
      now st' = tsToMs T
      /\ Date_now (overrideGlobals global) st' = Ok (tsToMs T) st'
      /\ Date (overrideGlobals global) [] st' = Date global [VNum (tsToMs T)] st')
  /\ (timestamp (decodeDelimited encodedActivation) = None \/ batchIndex <> 0 ->
      now (final_state (activate encodedActivation batchIndex st)) = now st).
Proof.
  intros Hnone Hnow.
  pose proof (activate_final_state encodedActivation batchIndex st Hnone) as Hact.
  pose proof (activate_handler_now Hnow
                {| input_activation := decodeDelimited encodedActivation;
                   input_batchIndex := batchIndex |} st) as Hclock.
  simpl in Hact, Hclock. split.
  - intros T r st' global HT -> Hrun.
    destruct (activate_handler _ st) as [[] st1|e st1] eqn:Hhandler;
      [|congruence].
    destruct (activate_handler_returns _ _ _ Hhandler eq_refl) as [[i Hi] [js Hjs]].
    simpl in *. rewrite Hi, Hjs, HT in Hclock.
    rewrite Hact in Hrun. injection Hrun as <- <-.
    assert (Hst' : now (set_pendingExternalCalls [] st1) = tsToMs T) by done.
    split; [done|]. split.
    + unfold overrideGlobals, Date_now, gets. simpl. by rewrite Hclock.
    + unfold overrideGlobals, Date. simpl. unfold bind, gets. simpl.
      by rewrite Hclock.
  - intros Hcase.
    assert (Hsame : now (final_state (activate encodedActivation batchIndex st)) =
                    now (final_state
                           (activate_handler
                              {| input_activation := decodeDelimited encodedActivation;
                                 input_batchIndex := batchIndex |} st))).
    { destruct (activate_handler _ st) as [[] st1|e st1]; by rewrite Hact. }
    rewrite Hsame, Hclock.
    destruct (Z.eqb_spec batchIndex 0) as [->|Hne]; [|done].
    destruct Hcase as [HT|?]; [|done]. rewrite HT.
    destruct (info st); [|done]. by destruct (jobs _).
Qed.

(** ** Jobs after completion *)

Lemma start_jobs_dropped js : forall st : State,
  completed st = true ->
  Forall (fun job => variant job <> Some queryWorkflow) js ->
  (start_jobs js st).2 = st
  /\ Forall (fun s => s <> JobAwaiting) (start_jobs js st).1.
Proof.
  induction js as [|job js IH]; intros st Hdone Hall; simpl; [done|].
  apply Forall_cons in Hall as [Hjob Hall].
  assert (Hstart : (start_job job st).2 = st /\ (start_job job st).1 <> JobAwaiting).
  { unfold start_job. destruct (variant job) as [v|]; [|done].
    destruct (negb (truthy _)); [done|]. rewrite Hdone. simpl.
    rewrite bool_decide_eq_false_2 by congruence. done. }
  destruct (start_job job st) as [s st1]. simpl in Hstart.
  destruct Hstart as [-> Hs].
  specialize (IH st Hdone Hall). destruct (start_jobs js st) as [ss st2].
  simpl in *. destruct IH as [-> Hss]. split; [done|]. by constructor.
Qed.


(** ** Sequence numbers *)

Lemma quiet_step_refl (st : State) : quiet_step st st.
Proof. by split. Qed.

Lemma quiet_step_trans (st1 st2 st3 : State) :
  quiet_step st1 st2 -> quiet_step st2 st3 -> quiet_step st1 st3.
Proof. intros [? ?] [? ?]. split; [congruence|auto]. Qed.

Lemma same_bookkeeping_quiet (st st' : State) :
  same_bookkeeping st st' -> quiet_step st st'.
Proof. intros (_&_&_&Hn&Hc&_). split; [done|]. intros k s. by rewrite Hc. Qed.

Lemma resolveExternalDependencies_quiet results : forall st : State,
  quiet_step st (final_state (resolveExternalDependencies results st)).
Proof.
  induction results as [|r results IH]; intros st; simpl.
  - apply quiet_step_refl.
  - unfold bind at 1. unfold consumeCompletion.
    destruct (completions st dependency !! seq r) as [c|]; [|apply quiet_step_refl].
    set (st1 := set_completions _ st).
    assert (H1 : quiet_step st st1).
    { split; [done|]. intros k s. subst st1. simpl. unfold upd.
      case_decide as Hk; [subst k|done].
      destruct (decide (s = seq r)) as [->|Hs].
      - by rewrite lookup_delete_eq; intros [? ?].
      - by rewrite lookup_delete_ne. }
    unfold bind at 1.
    destruct (call_fn_run (if truthy (error r) then reject c else resolve c)
                (if truthy (error r) then error r else result r) st1)
      as (st2 & Hcall & _ & _ & Hframe & _).
    assert (Hcall' : (if truthy (error r) then call_fn (reject c) (error r)
                      else call_fn (resolve c) (result r)) st1 = Ok tt st2).
    { by destruct (truthy (error r)). }
    rewrite Hcall'.
    eapply quiet_step_trans; [exact H1|].
    eapply quiet_step_trans; [apply same_bookkeeping_quiet, Hframe|apply IH].
Qed.

Lemma registry_below_quiet (st st' : State) :
  quiet_step st st' -> registry_below st -> registry_below st'.
Proof. intros [Hn Hc] Hwf k s Hs. rewrite Hn. by apply Hwf, Hc. Qed.

Lemma orderly_step_refl (st : State) : orderly_step st st.
Proof. split; [done|]. intros k. lia. Qed.

Lemma orderly_step_trans (st1 st2 st3 : State) :
  orderly_step st1 st2 -> orderly_step st2 st3 -> orderly_step st1 st3.
Proof.
  intros [Hwf1 Hn1] [Hwf2 Hn2]. split; [auto|].
  intros k. specialize (Hn1 k). specialize (Hn2 k). lia.
Qed.

Lemma quiet_step_orderly (st st' : State) : quiet_step st st' -> orderly_step st st'.
Proof.
  intros Hq. split; [by apply registry_below_quiet|].
  intros k. destruct Hq as [-> _]. lia.
Qed.

Lemma start_jobs_orderly js : forall st : State,
  (forall v payload (s : State), orderly_step s (final_state (activator v payload s))) ->
  orderly_step st (start_jobs js st).2.
Proof.
  induction js as [|job js IH]; intros st Hhandlers; simpl.
  - apply orderly_step_refl.
  - assert (Hjob : orderly_step st (start_job job st).2).
    { unfold start_job. destruct (variant job) as [v|]; [|apply orderly_step_refl].
      destruct (negb _); [apply orderly_step_refl|].
      destruct (_ && _); [apply orderly_step_refl|].
      set (st0 := set_calls _ st).
      apply (orderly_step_trans st st0); [by apply quiet_step_orderly|].
      specialize (Hhandlers v (field job v) st0).
      by destruct (activator v (field job v) st0). }
    destruct (start_job job st) as [s st1]. specialize (IH st1 Hhandlers).
    destruct (start_jobs js st1) as [ss st2]. simpl in *.
    by eapply orderly_step_trans.
Qed.

Lemma activate_handler_orderly input (st : State) :
  (forall v payload (s : State), orderly_step s (final_state (activator v payload s))) ->
  orderly_step st (final_state (activate_handler input st)).
Proof.
  intros Hhandlers. unfold activate_handler.
  assert (Hjobs : forall st0 : State,
            orderly_step st0
              (final_state
                 (match jobs (input_activation input) with
                  | None => throw (TypeError "Cannot read properties of null (reading 'map')")
                  | Some jobs => fun st =>
                      let '(statuses, st1) := start_jobs jobs st in
                      let st2 := resume_jobs statuses st1 in
                      match first_rejection statuses with
                      | Some e => Throw e st2
                      | None => Ok tt st2
                      end
                  end st0))).
  { intros st0. destruct (jobs (input_activation input)) as [js|];
      [|apply orderly_step_refl].
    pose proof (start_jobs_orderly js st0 Hhandlers) as Hstart.
    destruct (start_jobs js st0) as [statuses st1]. simpl in *.
    pose proof (quiet_step_orderly _ _
                  (same_bookkeeping_quiet _ _ (resume_jobs_bookkeeping statuses st1)))
      as Hresume.
    destruct (first_rejection statuses); simpl; by eapply orderly_step_trans. }
  unfold bind. destruct (input_batchIndex input =? 0).
  - destruct (info st) as [i|]; [|apply orderly_step_refl].
    destruct (jobs (input_activation input)) as [js|] eqn:Hjs;
      [|apply orderly_step_refl].
    set (st0 := set_info _ _).
    apply (orderly_step_trans st st0).
    + apply quiet_step_orderly. subst st0.
      by destruct (timestamp (input_activation input)).
    + apply Hjobs.
  - unfold ret. apply Hjobs.
Qed.

Lemma activate_orderly encodedActivation batchIndex (st : State) :
  orderly_host ->
  orderly_step st (final_state (activate encodedActivation batchIndex st)).
Proof.
  intros [Hhandlers Hnone].
  assert (Hnone' : Forall (fun i => on_activate i = None) internals).
  { eapply Forall_impl; [exact Hnone|]. by intros i [? _]. }
  pose proof (activate_final_state encodedActivation batchIndex st Hnone') as Hact.
  pose proof (activate_handler_orderly
                {| input_activation := decodeDelimited encodedActivation;
                   input_batchIndex := batchIndex |} st Hhandlers) as Hstep.
  simpl in Hact. destruct (activate_handler _ st) as [[] st1|e st1];
    rewrite Hact; simpl in *; [|done].
  eapply orderly_step_trans; [exact Hstep|]. by apply quiet_step_orderly.
Qed.

Lemma concludeActivation_orderly (st : State) :
  orderly_host ->
  orderly_step st (final_state (concludeActivation st)).
Proof.
  intros [_ Hnone].
  assert (Hnone' : Forall (fun i => on_concludeActivation i = None) internals).
  { eapply Forall_impl; [exact Hnone|]. by intros i [_ ?]. }
  destruct (concludeActivation_final_state st Hnone') as [-> | ->];
    by apply quiet_step_orderly.
Qed.

Local Arguments seqs_of : simpl never.

(** What one operation does to the counters and the registries. *)
Lemma exec_op_seqs global op (st : State) :
  orderly_host ->
  registry_below st ->
  let log := (exec_op global op st).1 in
  let st' := (exec_op global op st).2 in
  registry_below st'
  /\ (forall k, nextSeqs st k <= nextSeqs st' k)
  /\ (forall k, seqs_of k log = [] \/
                (seqs_of k log = [nextSeqs st k] /\ nextSeqs st k < nextSeqs st' k)).
Proof.
  intros Hhost Hwf.
  assert (Horderly : forall st' : State, orderly_step st st' ->
            registry_below st'
            /\ (forall k, nextSeqs st k <= nextSeqs st' k)
            /\ (forall k, seqs_of k [] = [] \/
                  (seqs_of k [] = [nextSeqs st k] /\ nextSeqs st k < nextSeqs st' k))).
  { intros st' [Hwf' Hn]. split; [auto|]. split; [done|by left]. }
  assert (Hquiet : forall st' : State, quiet_step st st' ->
            registry_below st'
            /\ (forall k, nextSeqs st k <= nextSeqs st' k)
            /\ (forall k, seqs_of k [] = [] \/
                  (seqs_of k [] = [nextSeqs st k] /\ nextSeqs st k < nextSeqs st' k))).
  { intros st' Hq. split; [by eapply registry_below_quiet|].
    split; [|by left]. intros k. destruct Hq as [-> _]. lia. }
  assert (Halloc : forall k0 (c : Completion Env) (st' : State),
            nextSeqs st' = upd k0 (nextSeqs st k0 + 1) (nextSeqs st) ->
            completions st' = upd k0 (<[nextSeqs st k0 := c]> (completions st k0))
                                (completions st) ->
            registry_below st'
            /\ (forall k, nextSeqs st k <= nextSeqs st' k)
            /\ (forall k, seqs_of k [(k0, nextSeqs st k0)] = [] \/
                  (seqs_of k [(k0, nextSeqs st k0)] = [nextSeqs st k]
                   /\ nextSeqs st k < nextSeqs st' k))).
  { intros k0 c st' Hn Hc. split; [|split].
    - intros k s. rewrite Hn, Hc. unfold upd. case_decide as Hk.
      + subst k. destruct (decide (s = nextSeqs st k0)) as [->|Hs]; [lia|].
        rewrite lookup_insert_ne by done. intros Hs'. apply Hwf in Hs'. lia.
      + apply Hwf.
    - intros k. rewrite Hn. unfold upd. case_decide; [subst|]; lia.
    - intros k. unfold seqs_of. simpl. case_decide as Hk; [|by left].
      subst k. right. split; [done|]. rewrite Hn, upd_same. lia. }
  cbv zeta.
  destruct op as [enc idx| |cb ms a|handle|i f r m o|i f a|results| |];
    unfold exec_op.
  - by apply Horderly, activate_orderly.
  - by apply Horderly, concludeActivation_orderly.
  - rewrite setTimeout_run. simpl. by eapply Halloc.
  - rewrite clearTimeout_run. simpl. split; [|split; [|by left]].
    + intros k s. simpl. unfold upd. case_decide as Hk; [|apply Hwf].
      subst k. destruct (decide (s = handle)) as [->|Hs].
      * rewrite lookup_delete_eq. by intros [? ?].
      * rewrite lookup_delete_ne by done. intros Hs'. apply Hwf in Hs'. lia.
    + intros k. simpl. unfold upd. case_decide; [subst|]; lia.
  - destruct (inject_lookup i f r m o st) as (st' & -> & _ & Hframe).
    simpl. apply Hquiet. rewrite <- Hframe. by split.
  - unfold call_dependency.
    destruct (dependencies st !! i ≫= _) as [[i' f'|i' f'|r m o]|];
      [| | |by apply Hquiet, quiet_step_refl].
    + rewrite call_stub_async_run. simpl. rewrite last_snoc. simpl.
      match goal with
      | |- registry_below ?s /\ _ =>
          exact (Halloc dependency
                   {| resolve := FnResolve (length (promises st));
                      reject := FnReject (length (promises st)) |}
                   s eq_refl eq_refl)
      end.
    + rewrite call_stub_async_ignored_run. simpl.
      match goal with |- registry_below ?s /\ _ => apply (Hquiet s) end.
      by split.
    + simpl. destruct (applyReference r m a o); simpl;
        by apply Hquiet, quiet_step_refl.
  - apply Hquiet, resolveExternalDependencies_quiet.
  - destruct (tryUnblockConditions_bookkeeping st) as (n & st' & -> & Hframe).
    simpl. by apply Hquiet, same_bookkeeping_quiet.
  - simpl. match goal with |- registry_below ?s /\ _ => apply (Hquiet s) end.
    by split.
Qed.

Lemma seqs_of_app k log1 log2 :
  seqs_of k (log1 ++ log2) = seqs_of k log1 ++ seqs_of k log2.
Proof. unfold seqs_of. apply omap_app. Qed.

Lemma run_app global ops1 ops2 (st : State) :
  run global (ops1 ++ ops2) st =
    ((run global ops1 st).1 ++ (run global ops2 (run global ops1 st).2).1,
     (run global ops2 (run global ops1 st).2).2).
Proof.
  revert st. induction ops1 as [|op ops1 IH]; intros st; simpl.
  - by destruct (run global ops2 st).
  - destruct (exec_op global op st) as [log1 st1]. rewrite IH.
    destruct (run global ops1 st1) as [log2 st2]. simpl.
    by rewrite app_assoc.
Qed.

(** Along a run the numbers of a kind come out strictly increasing, between
    the counter at the start and the counter at the end. *)
Lemma run_seqs global ops : forall st : State,
  orderly_host ->
  registry_below st ->
  registry_below (run global ops st).2
  /\ forall k,
      nextSeqs st k <= nextSeqs (run global ops st).2 k
      /\ StronglySorted Z.lt (seqs_of k (run global ops st).1)
      /\ Forall (fun s => nextSeqs st k <= s < nextSeqs (run global ops st).2 k)
           (seqs_of k (run global ops st).1).
Proof.
  induction ops as [|op ops IH]; intros st Hhost Hwf; simpl.
  - split; [done|]. intros k. split; [lia|]. split; constructor.
  - destruct (exec_op_seqs global op st Hhost Hwf) as (Hwf1 & Hmono1 & Hlog1).
    destruct (exec_op global op st) as [log1 st1]. simpl in *.
    destruct (IH st1 Hhost Hwf1) as (Hwf2 & Hrest).
    destruct (run global ops st1) as [log2 st2]. simpl in *.
    split; [done|]. intros k.
    destruct (Hrest k) as (Hmono2 & Hsorted & Hrange).
    specialize (Hmono1 k). split; [lia|].
    rewrite seqs_of_app.
    destruct (Hlog1 k) as [->|[-> Hlt]]; simpl.
    + split; [done|]. eapply Forall_impl; [exact Hrange|]. simpl. lia.
    + split.
      * constructor; [done|]. eapply Forall_impl; [exact Hrange|]. simpl. lia.
      * constructor; [lia|]. eapply Forall_impl; [exact Hrange|]. simpl. lia.
Qed.

(** C5. Start from a state whose registered completions sit below their
    counters (a fresh state is one) and perform any operations of the
    module, on a host whose handlers do not turn a counter back and that
    installs no interceptor.  For each kind, the sequence numbers handed out
    come out strictly increasing.  At any point of the run, every number
    handed out later is greater than all those handed out before, and no
    completion of its kind is registered under it at that point: it is not
    reused. *)
Theorem sequence_numbers_strictly_increase global ops1 ops2 (st : State) (k : Kind) :
  orderly_host ->
  registry_below st ->
  let log1 := (run global ops1 st).1 in
  let st1 := (run global ops1 st).2 in
  let log2 := (run global ops2 st1).1 in
  (run global (ops1 ++ ops2) st).1 = log1 ++ log2
  /\ StronglySorted Z.lt (seqs_of k (log1 ++ log2))
  /\ (forall s, s ∈ seqs_of k log2 ->
        completions st1 k !! s = None
        /\ (forall s', s' ∈ seqs_of k log1 -> s' < s)).
Proof.
  intros Hhost Hwf. simpl.
  destruct (run_seqs global ops1 st Hhost Hwf) as (Hwf1 & H1).
  destruct (run_seqs global (ops1 ++ ops2) st Hhost Hwf) as (_ & H12).
  destruct (run_seqs global ops2 _ Hhost Hwf1) as (_ & H2).
  rewrite run_app in H12. simpl in H12. rewrite run_app. simpl.
  split; [done|]. split; [apply H12|].
  intros s Hs.
  destruct (H2 k) as (_ & _ & Hrange2). destruct (H1 k) as (_ & _ & Hrange1).
  rewrite Forall_forall in Hrange1, Hrange2.
  specialize (Hrange2 s Hs). split.
  - destruct (completions _ k !! s) eqn:Hreg; [|done].
    assert (s < nextSeqs (run global ops1 st).2 k) by (apply Hwf1; eauto).
    lia.
  - intros s' Hs'. specialize (Hrange1 s' Hs'). lia.
Qed.

End Properties.

(** * Further properties of the module *)

Section MoreProperties.
Context `{Host}.

Abbreviation State := (State Env).


(** ** Globals *)

(** X1. Running [overrideGlobals] a second time changes nothing: each
    replaced global behaves after two runs as it does after one. *)
Theorem overrideGlobals_idempotent (global : Globals Env) :
  let once := overrideGlobals global in
  let twice := overrideGlobals (overrideGlobals global) in
  (forall args st, WeakMap twice args st = WeakMap once args st)
  /\ (forall args st, WeakSet twice args st = WeakSet once args st)
  /\ (forall args st, WeakRef twice args st = WeakRef once args st)
  /\ (forall args st, Date twice args st = Date once args st)
  /\ (forall st, Date_now twice st = Date_now once st)
  /\ (forall args st, Date_parse twice args st = Date_parse once args st)
  /\ (forall args st, Date_UTC twice args st = Date_UTC once args st)
  /\ (forall cb ms args st, setTimeout twice cb ms args st = setTimeout once cb ms args st)
  /\ (forall handle st, clearTimeout twice handle st = clearTimeout once handle st).
Proof.
  simpl. repeat split.
  intros args st. destruct args as [|a args]; reflexivity.
Qed.

(** ** Timers *)

(** X2. In a state whose registered completions sit below their counters,
    [setTimeout] returns a handle under which no timer is registered yet and
    registers its callback there, and it leaves every other timer, and the
    completions of the other kinds, registered as they were. *)
Theorem setTimeout_keeps_timers (global : Globals Env) cb ms args (st : State) :
  registry_below st ->
  exists handle st',
    setTimeout (overrideGlobals global) cb ms args st = Ok handle st'
    /\ completions st timer !! handle = None
    /\ completions st' timer !! handle =
         Some {| resolve := FnCallback cb args; reject := FnIgnore |}
    /\ (forall h, h <> handle -> completions st' timer !! h = completions st timer !! h)
    /\ (forall h c, completions st timer !! h = Some c ->
          completions st' timer !! h = Some c)
    /\ (forall k, k <> timer -> completions st' k = completions st k)
    /\ registry_below st'.
Proof.
  intros Hwf. do 2 eexists. split; [apply setTimeout_run|]. simpl.
  rewrite !upd_same.
  assert (Hfresh : completions st timer !! nextSeqs st timer = None).
  { destruct (completions st timer !! nextSeqs st timer) eqn:Hreg; [|done].
    assert (nextSeqs st timer < nextSeqs st timer) by (apply Hwf; eauto). lia. }
  split; [done|]. split; [apply lookup_insert_eq|].
  split. { intros h Hh. by rewrite lookup_insert_ne. }
  split. { intros h c Hc. rewrite lookup_insert_ne; [done|]. congruence. }
  split. { intros k Hk. by rewrite upd_other. }
  intros k s. simpl. unfold upd. case_decide as Hk.
  - subst k. destruct (decide (s = nextSeqs st timer)) as [->|Hs]; [lia|].
    rewrite lookup_insert_ne by done. intros Hs'. apply Hwf in Hs'. lia.
  - apply Hwf.
Qed.

(** X3. [clearTimeout] does not look whether the handle is registered.  For
    a handle under which no timer is registered (never started, fired, or
    cancelled before) it still advances the timer counter and buffers a
    [cancelTimer] command, and it leaves the registry as it is; in any case
    it leaves the timers under other handles registered. *)
Theorem clearTimeout_unregistered_handle (global : Globals Env) handle (st : State) :
  exists st',
    clearTimeout (overrideGlobals global) handle st = Ok tt st'
    /\ (forall h, h <> handle -> completions st' timer !! h = completions st timer !! h)
    /\ (completions st timer !! handle = None ->
        (forall k, completions st' k = completions st k)
        /\ commands st' = commands st ++ [cancelTimer handle]
        /\ nextSeqs st' timer = nextSeqs st timer + 1).
Proof.
  eexists. split; [apply clearTimeout_run|]. simpl. rewrite !upd_same.
  split. { intros h Hh. by rewrite lookup_delete_ne. }
  intros Hnone. rewrite (delete_id _ _ Hnone). repeat split; try done.
  intros k. unfold upd. by case_decide; subst.
Qed.

(** ** Dependencies *)

Lemma resolveExternalDependencies_app results1 results2 (st : State) :
  resolveExternalDependencies (results1 ++ results2) st =
    (resolveExternalDependencies results1 ;; resolveExternalDependencies results2) st.
Proof.
  revert st. induction results1 as [|r results1 IH]; intros st; [reflexivity|].
  simpl. unfold bind in *.
  destruct (consumeCompletion dependency (seq r) st) as [c st1|]; [|done].
  match goal with
  | |- match ?x with _ => _ end = _ => destruct x as [[] st2|]; [|done]
  end.
  apply IH.
Qed.

(** X4. A dependency completion is consumed by its first result.  After
    [resolveExternalDependencies] has settled the promise of sequence [s], a
    further result for [s], in a later call or later in the same list, throws
    an [IllegalStateError] and leaves the promise as the first result
    settled it. *)
Theorem resolveExternalDependencies_once (st : State) s p r r' :
  awaits_dependency st s p -> seq r = s -> seq r' = s ->
  exists st1 message,
    resolveExternalDependencies [r] st = Ok tt st1
    /\ promises st1 !! p =
         Some (if truthy (error r) then Rejected (error r) else Fulfilled (result r))
    /\ resolveExternalDependencies [r'] st1 = Throw (IllegalStateError message) st1
    /\ resolveExternalDependencies [r; r'] st = Throw (IllegalStateError message) st1.
Proof.
  intros [Hc Hp] Hr Hr'. subst s.
  pose proof (resolveExternalDependencies_known r _ st Hc) as Hone.
  set (st0 := set_completions _ st) in Hone.
  assert (Hrun : exists st1, resolveExternalDependencies [r] st = Ok tt st1
            /\ promises st1 !! p =
                 Some (if truthy (error r) then Rejected (error r) else Fulfilled (result r))
            /\ completions st1 dependency !! seq r = None).
  { rewrite Hone. destruct (truthy (error r)); simpl; eexists;
      (split; [reflexivity|]); simpl;
      (split; [by apply settle_pending|]);
      unfold settle; simpl; rewrite Hp; simpl; rewrite upd_same;
      apply lookup_delete_eq. }
  destruct Hrun as (st1 & Hrun1 & Hsettled & Hgone).
  exists st1, "No completion for the given kind and sequence".
  split; [done|]. split; [done|].
  assert (Hsecond : resolveExternalDependencies [r'] st1 =
            Throw (IllegalStateError "No completion for the given kind and sequence") st1).
  { apply resolveExternalDependencies_unknown. by rewrite Hr'. }
  split; [done|].
  change [r; r'] with ([r] ++ [r']).
  rewrite resolveExternalDependencies_app. unfold bind. by rewrite Hrun1.
Qed.

(** X5. Results are applied in the order of the list and a failure undoes
    nothing: a list in two parts acts as the first part followed by the
    second, so when the first part goes through and the second throws, the
    call throws in the state the first part left, with its promises
    settled. *)
Theorem resolveExternalDependencies_in_order results1 results2 (st : State) :
  resolveExternalDependencies (results1 ++ results2) st =
    (resolveExternalDependencies results1 ;; resolveExternalDependencies results2) st
  /\ (forall st1 e st2,
        resolveExternalDependencies results1 st = Ok tt st1 ->
        resolveExternalDependencies results2 st1 = Throw e st2 ->
        resolveExternalDependencies (results1 ++ results2) st = Throw e st2)
  /\ (forall e st1,
        resolveExternalDependencies results1 st = Throw e st1 ->
        resolveExternalDependencies (results1 ++ results2) st = Throw e st1).
Proof.
  split; [apply resolveExternalDependencies_app|].
  split.
  - intros st1 e st2 H1 H2. rewrite resolveExternalDependencies_app.
    unfold bind. by rewrite H1.
  - intros e st1 H1. rewrite resolveExternalDependencies_app.
    unfold bind. by rewrite H1.
Qed.

(** X6. External calls reach the worker in the order the workflow made
    them.  Calls through [ASYNC] stubs are appended to the pending list in
    order, tagged with consecutive sequence numbers from the counter on;
    [getAndResetPendingExternalCalls] then returns the whole list, and a
    second call returns the empty list. *)
Theorem external_calls_in_order requests (st : State) :
  exists returns st' st'',
    call_async_stubs requests st = Ok returns st'
    /\ length returns = length requests
    /\ pendingExternalCalls st' =
         pendingExternalCalls st ++ queued_calls (nextSeqs st dependency) requests
    /\ nextSeqs st' dependency = nextSeqs st dependency + Z.of_nat (length requests)
    /\ getAndResetPendingExternalCalls st' = Ok (pendingExternalCalls st') st''
    /\ getAndResetPendingExternalCalls st'' = Ok [] st''.
Proof.
  assert (Hcalls : exists returns st',
            call_async_stubs requests st = Ok returns st'
            /\ length returns = length requests
            /\ pendingExternalCalls st' =
                 pendingExternalCalls st ++ queued_calls (nextSeqs st dependency) requests
            /\ nextSeqs st' dependency =
                 nextSeqs st dependency + Z.of_nat (length requests)).
  { revert st. induction requests as [|[[i f] a] requests IH]; intros st.
    - exists [], st. simpl. rewrite app_nil_r, Z.add_0_r. by repeat split.
    - cbn [call_async_stubs]. unfold bind at 1. rewrite call_stub_async_run.
      set (st1 := set_pendingExternalCalls _ _).
      destruct (IH st1) as (returns & st' & Hrun & Hlen & Hpending & Hseq).
      unfold bind at 1. rewrite Hrun. unfold ret.
      do 2 eexists. split; [reflexivity|].
      split; [simpl; by rewrite Hlen|].
      subst st1. simpl in *. rewrite upd_same in Hpending, Hseq.
      split; [by rewrite Hpending, <- app_assoc|].
      rewrite Hseq. lia. }
  destruct Hcalls as (returns & st' & Hrun & Hlen & Hpending & Hseq).
  exists returns, st', (set_pendingExternalCalls [] st').
  by repeat split.
Qed.



(** ** Conclusions *)

(** X8. A [pending] conclusion loses no command.  Without interceptors,
    when external calls are pending, [concludeActivation] returns [pending]
    and the next call returns [complete] with the commands that were
    buffered at the first call, encoded; a call after that encodes no
    command at all. *)
Theorem concludeActivation_after_pending (st : State) :
  Forall (fun i => on_concludeActivation i = None) internals ->
  pendingExternalCalls st <> [] ->
  exists st1 st2,
    concludeActivation st =
      Ok (pending (pendingExternalCalls st) (Z.of_nat (length (blockedConditions st)))) st1
    /\ concludeActivation st1 =
         Ok (complete (encodeDelimited (runId <$> info st) (commands st))) st2
    /\ concludeActivation st2 =
         Ok (complete (encodeDelimited (runId <$> info st) [])) st2.
Proof.
  intros Hnone Hcalls.
  assert (Hcomplete : forall s : State, pendingExternalCalls s = [] ->
            concludeActivation s =
              Ok (complete (encodeDelimited (runId <$> info s) (commands s)))
                 (set_commands [] s)).
  { intros s Hs. rewrite (concludeActivation_complete_run s Hs).
    by rewrite (composeInterceptors_absent _ _ _ Hnone). }
  exists (set_pendingExternalCalls [] st),
         (set_commands [] (set_pendingExternalCalls [] st)).
  split; [by apply concludeActivation_pending_run|].
  split; [by rewrite Hcomplete|].
  by rewrite Hcomplete.
Qed.

(** ** Activations *)

(** X9. What [activate] checks, and when.  Without interceptors, at
    [batchIndex] 0 it throws an [IllegalStateError] when [state.info] is not
    set and a [TypeError] when the activation has no [jobs], and in both
    cases it leaves the state, pending external calls included, as it was.
    At a later [batchIndex] neither check is made: an activation with an
    empty list of jobs returns the pending external calls even when
    [state.info] is not set. *)
Theorem activate_checks_first_batch encodedActivation (st : State) :
  Forall (fun i => on_activate i = None) internals ->
  (info st = None ->
     activate encodedActivation 0 st =
       Throw (IllegalStateError "Workflow has not been initialized") st)
  /\ (is_Some (info st) -> jobs (decodeDelimited encodedActivation) = None ->
        activate encodedActivation 0 st =
          Throw (TypeError "Got activation with no jobs") st)
  /\ (forall batchIndex, batchIndex <> 0 ->
        jobs (decodeDelimited encodedActivation) = Some [] ->
        activate encodedActivation batchIndex st =
          Ok {| externalCalls := pendingExternalCalls st;
                numBlockedConditions := Z.of_nat (length (blockedConditions st)) |}
             (set_pendingExternalCalls [] st)).
Proof.
  intros Hnone. split; [|split].
  - intros Hinfo.
    pose proof (activate_final_state encodedActivation 0 st Hnone) as Hact.
    simpl in Hact. unfold activate_handler, bind in Hact. simpl in Hact.
    by rewrite Hinfo in Hact.
  - intros [i Hinfo] Hjobs.
    pose proof (activate_final_state encodedActivation 0 st Hnone) as Hact.
    simpl in Hact. unfold activate_handler, bind in Hact. simpl in Hact.
    by rewrite Hinfo, Hjobs in Hact.
  - intros batchIndex Hidx Hjobs.
    pose proof (activate_final_state encodedActivation batchIndex st Hnone) as Hact.
    simpl in Hact. unfold activate_handler, bind in Hact. simpl in Hact.
    rewrite Hjobs in Hact.
    destruct (Z.eqb_spec batchIndex 0) as [?|_]; [done|]. exact Hact.
Qed.

Lemma resume_jobs_app statuses1 statuses2 (st : State) :
  resume_jobs (statuses1 ++ statuses2) st =
    resume_jobs statuses2 (resume_jobs statuses1 st).
Proof.
  revert st. induction statuses1 as [|[] statuses1 IH]; intros st; simpl; auto.
Qed.

Lemma first_rejection_app_threw statuses1 e statuses2 :
  is_Some (first_rejection (statuses1 ++ JobThrew e :: statuses2)).
Proof. induction statuses1 as [|[] statuses1 IH]; simpl; eauto. Qed.

Lemma start_jobs_undefined_variant js1 bad js2 : forall st : State,
  variant bad = None ->
  exists statuses1 statuses2 st',
    start_jobs (js1 ++ bad :: js2) st =
      (statuses1 ++ JobThrew (TypeError "Expected job.variant to be defined") :: statuses2,
       st')
    /\ start_jobs (js1 ++ js2) st = (statuses1 ++ statuses2, st').
Proof.
  intros st Hbad. revert st. induction js1 as [|job js1 IH]; intros st.
  - simpl. unfold start_job at 1. rewrite Hbad.
    destruct (start_jobs js2 st) as [statuses2 st'].
    by exists [], statuses2, st'.
  - simpl. destruct (start_job job st) as [s st1].
    destruct (IH st1) as (statuses1 & statuses2 & st' & -> & ->).
    by exists (s :: statuses1), statuses2, st'.
Qed.

(** X10. A job whose [variant] is not defined makes the activation throw,
    and changes nothing else: the other jobs, before and after it, are
    processed as if it were not there.  Without interceptors [activate]
    then throws in the state they leave, without draining the external
    calls they queued, which stay pending. *)
Theorem undefined_variant_rejects_activation
    encodedActivation batchIndex js1 bad js2 (st : State) :
  Forall (fun i => on_activate i = None) internals ->
  jobs (decodeDelimited encodedActivation) = Some (js1 ++ bad :: js2) ->
  variant bad = None ->
  let without :=
    {| input_activation :=
         {| timestamp := timestamp (decodeDelimited encodedActivation);
            isReplaying := isReplaying (decodeDelimited encodedActivation);
            jobs := Some (js1 ++ js2) |};
       input_batchIndex := batchIndex |} in
  returned (activate encodedActivation batchIndex st) = None
  /\ final_state (activate encodedActivation batchIndex st) =
       final_state (activate_handler without st).
Proof.
  intros Hnone Hjobs Hbad without.
  pose proof (activate_final_state encodedActivation batchIndex st Hnone) as Hact.
  simpl in Hact.
  assert (Hbody : forall st0 : State,
            exists e,
              (let '(statuses, st1) := start_jobs (js1 ++ bad :: js2) st0 in
               let st2 := resume_jobs statuses st1 in
               match first_rejection statuses with
               | Some e => Throw e st2
               | None => Ok tt st2
               end) =
              Throw e
                (final_state
                   (let '(statuses, st1) := start_jobs (js1 ++ js2) st0 in
                    let st2 := resume_jobs statuses st1 in
                    match first_rejection statuses with
                    | Some e => Throw e st2
                    | None => Ok tt st2
                    end))).
  { intros st0.
    destruct (start_jobs_undefined_variant js1 bad js2 st0 Hbad)
      as (statuses1 & statuses2 & st' & -> & ->).
    destruct (first_rejection_app_threw statuses1
                (TypeError "Expected job.variant to be defined") statuses2)
      as [e ->].
    exists e. f_equal. rewrite !resume_jobs_app. simpl.
    by destruct (first_rejection (statuses1 ++ statuses2)). }
  assert (Hhandler : exists e,
            activate_handler
              {| input_activation := decodeDelimited encodedActivation;
                 input_batchIndex := batchIndex |} st =
            Throw e (final_state (activate_handler without st))).
  { unfold activate_handler, bind, without. simpl. rewrite Hjobs.
    destruct (batchIndex =? 0).
    - destruct (info st) as [i|]; [|by eexists].
      apply Hbody.
    - unfold ret. apply Hbody. }
  destruct Hhandler as [e Hhandler]. rewrite Hhandler in Hact.
  by rewrite Hact.
Qed.

(** X11. The case the source comments on: when the handler of a job
    completes the workflow, the jobs that follow it in the same activation
    are dropped unless they are queries.  The state stays the one that job
    left, and none of them goes on to unblock conditions. *)
Theorem completing_job_drops_the_rest job rest (st : State) :
  completed (start_job job st).2 = true ->
  Forall (fun j => variant j <> Some queryWorkflow) rest ->
  exists statuses,
    start_jobs (job :: rest) st =
      ((start_job job st).1 :: statuses, (start_job job st).2)
    /\ Forall (fun s => s <> JobAwaiting) statuses.
Proof.
  intros Hdone Hrest. simpl.
  destruct (start_job job st) as [s st1]. simpl in *.
  destruct (start_jobs_dropped rest st1 Hdone Hrest) as [Hst Hs].
  destruct (start_jobs rest st1) as [ss st2]. simpl in *. subst st2.
  by exists ss.
Qed.

(** ** Blocked conditions *)

(** X12. [tryUnblockConditions] leaves nothing to do: called again right
    away it returns 0 and changes nothing.  The number it returns is the
    number of entries by which the map shrank. *)
Theorem tryUnblockConditions_twice (st : State) :
  NoDup (blockedConditions st).*1 ->
  exists n st',
    tryUnblockConditions st = Ok n st'
    /\ tryUnblockConditions st' = Ok 0 st'
    /\ 0 <= n
    /\ Z.of_nat (length (blockedConditions st')) =
         Z.of_nat (length (blockedConditions st)) - n.
Proof.
  intros Hnd.
  destruct (unblock_loop_run (S (length (blockedConditions st))) 0 st Hnd)
    as (removed & st' & Hrun & Hperm & _ & _ & _ & _ & _ & Hfix & _); [lia|].
  pose proof (NoDup_keys_perm _ _ _ Hperm Hnd) as Hnd'.
  destruct (unblock_loop_run (S (length (blockedConditions st'))) 0 st' Hnd')
    as (removed' & st'' & Hrun' & _ & _ & _ & _ & Hid' & Hnone' & _); [lia|].
  apply Hnone' in Hfix. subst removed'. rewrite (Hid' eq_refl) in Hrun'.
  exists (Z.of_nat (length removed)), st'.
  unfold tryUnblockConditions. rewrite Hrun, Hrun'.
  split; [done|]. split; [done|]. split; [lia|].
  apply Permutation_length in Hperm. rewrite length_app in Hperm. lia.
Qed.

(** ** The worker's side of the bridge *)

(** X13. [addDefaultTransferOptions] merges key by key and the given
    options win: every key given is kept with its value, [arguments] is
    always present, defaulting to [{copy: true}], [result] defaults to
    [{copy: true}] except for [SYNC_PROMISE], which gets no default for it,
    no other key appears, and adding the defaults again changes nothing. *)
Theorem addDefaultTransferOptions_merges applyMode transferOptions :
  let given : TransferOptions := default ∅ transferOptions in
  let merged := addDefaultTransferOptions applyMode transferOptions in
  (forall k v, given !! k = Some v -> merged !! k = Some v)
  /\ (given !! "arguments" = None -> merged !! "arguments" = Some copy_true)
  /\ (given !! "result" = None ->
        merged !! "result" =
          match applyMode with SYNC_PROMISE => None | _ => Some copy_true end)
  /\ (forall k, k <> "arguments" -> k <> "result" -> merged !! k = given !! k)
  /\ addDefaultTransferOptions applyMode (Some merged) = merged.
Proof.
  simpl. unfold addDefaultTransferOptions.
  set (given := default ∅ transferOptions).
  split. { intros k v Hk. by apply lookup_union_Some_l. }
  split. { intros Hk. rewrite lookup_union_r by done.
           destruct applyMode; by rewrite ?lookup_insert_eq, ?lookup_singleton_eq. }
  split. { intros Hk. rewrite lookup_union_r by done.
           destruct applyMode;
             by rewrite ?lookup_insert_ne, ?lookup_singleton_eq, ?lookup_singleton_ne. }
  split. { intros k Ha Hr. rewrite lookup_union.
           destruct applyMode;
             rewrite ?lookup_insert_ne, ?lookup_singleton_ne by done;
             by destruct (given !! k). }
  simpl. rewrite <- (assoc_L (∪)). f_equal. apply (idemp_L (∪)).
Qed.

Lemma promise_all_registered
    (deps : gmap string (gmap string (list Value -> HostOutcome))) calls :
  Forall (fun call => is_Some (deps !! ifaceName call ≫= (fun fns => fns !! fnName call)))
    calls ->
  exists results,
    promise_all (map (call_external deps) calls) = inr results
    /\ res_seq <$> results = call_seq <$> calls.
Proof.
  induction 1 as [|call calls [fn Hfn] _ (results & Hall & Hseqs)].
  - by exists [].
  - cbn [map promise_all]. unfold call_external at 1. rewrite Hfn, Hall.
    eexists. split; [reflexivity|]. rewrite !fmap_cons, Hseqs.
    by destruct (fn (args call)).
Qed.

Lemma promise_all_unregistered
    (deps : gmap string (gmap string (list Value -> HostOutcome))) calls :
  Exists (fun call => deps !! ifaceName call ≫= (fun fns => fns !! fnName call) = None)
    calls ->
  exists message, promise_all (map (call_external deps) calls) = inl (TypeError message).
Proof.
  induction 1 as [call calls Hcall|call calls _ [message IH]]; simpl.
  - unfold call_external. rewrite Hcall. by eexists.
  - rewrite IH. unfold call_external.
    destruct (deps !! ifaceName call ≫= _); by eexists.
Qed.

Lemma not_ignored_none results :
  Forall (fun s => s = None) (res_seq <$> results) -> omap not_ignored results = [].
Proof.
  induction results as [|r results IH]; simpl; [done|].
  intros Hall. apply Forall_cons in Hall as [Hr Hall].
  unfold not_ignored at 1. rewrite Hr. auto.
Qed.

(** X14. When [processExternalCalls] sends nothing back.  If any call of the
    batch names a function that is not registered, it throws a [TypeError]
    and the workflow state is as it was: no result of the batch is sent,
    those of the registered functions included.  If every function is
    registered, it returns without touching the workflow state when
    [sendResultsBack] is false, and when no call carries a [seq]. *)
Theorem processExternalCalls_sends_nothing
    (deps : gmap string (gmap string (list Value -> HostOutcome)))
    calls sendResultsBack (st : State) :
  (Exists (fun call => deps !! ifaceName call ≫= (fun fns => fns !! fnName call) = None)
     calls ->
   exists message,
     processExternalCalls deps calls sendResultsBack st = Throw (TypeError message) st)
  /\ (Forall (fun call =>
                is_Some (deps !! ifaceName call ≫= (fun fns => fns !! fnName call))) calls ->
      sendResultsBack = false \/ Forall (fun call => call_seq call = None) calls ->
      processExternalCalls deps calls sendResultsBack st = Ok tt st).
Proof.
  split.
  - intros Hsome. destruct (promise_all_unregistered deps calls Hsome) as [message Hall].
    exists message. unfold processExternalCalls. by rewrite Hall.
  - intros Hall Hcase.
    destruct (promise_all_registered deps calls Hall) as (results & Hresults & Hseqs).
    unfold processExternalCalls. rewrite Hresults.
    destruct Hcase as [-> | Hignored]; [done|].
    destruct sendResultsBack; [|done]. simpl.
    rewrite not_ignored_none; [done|].
    rewrite Hseqs. by apply Forall_fmap.
Qed.

(** X15. A call through the bridge, there and back.  Start with no external
    call pending.  [injectDependency] with mode [ASYNC] registers the
    function on both sides; a call of the workflow returns a promise and
    queues one external call; [getAndResetPendingExternalCalls] hands it to
    the worker, and [processExternalCalls] runs the function on the
    arguments of the call and settles that promise: fulfilled with what the
    function returns, rejected with what it throws, unless that is falsy, in
    which case the promise is fulfilled with [undefined]. *)
Theorem async_dependency_round_trip
    (deps : gmap string (gmap string (list Value -> HostOutcome)))
    ifaceName fnName fn reference transferOptions args (st : State) :
  pendingExternalCalls st = [] ->
  exists deps' st1 p st2 st3 st4,
    injectDependency deps ifaceName fnName fn reference ASYNC transferOptions st =
      Ok deps' st1
    /\ call_dependency ifaceName fnName args st1 = Ok (RetPromise p) st2
    /\ promises st2 !! p = Some Pending
    /\ getAndResetPendingExternalCalls st2 =
         Ok [{| ifaceName := ifaceName; fnName := fnName; args := args;
                call_seq := Some (nextSeqs st dependency) |}] st3
    /\ processExternalCalls deps'
         [{| ifaceName := ifaceName; fnName := fnName; args := args;
             call_seq := Some (nextSeqs st dependency) |}] true st3 = Ok tt st4
    /\ promises st4 !! p =
         Some (match fn args with
               | Returns v => Fulfilled v
               | Throws e => if truthy e then Rejected e else Fulfilled VUndefined
               end)
    /\ completions st4 dependency !! nextSeqs st dependency = None
    /\ pendingExternalCalls st4 = [].
Proof.
  intros Hpending.
  destruct (inject_lookup ifaceName fnName reference ASYNC
              (VObject (map_to_list (addDefaultTransferOptions ASYNC transferOptions))) st)
    as (st1 & Hinject & Hstub & Hframe).
  assert (Hst1 : promises st1 = promises st /\ nextSeqs st1 = nextSeqs st
                 /\ pendingExternalCalls st1 = [] /\ completions st1 = completions st).
  { rewrite <- Hframe in Hpending |- *. by simpl in *. }
  destruct Hst1 as (Hp1 & Hn1 & Hc1 & Hr1).
  set (deps' := <[ifaceName := <[fnName := fn]> (default ∅ (deps !! ifaceName))]> deps).
  set (s := nextSeqs st dependency).
  set (p := length (promises st)).
  set (call := {| ifaceName := ifaceName; fnName := fnName; args := args;
                  call_seq := Some s |}).
  pose proof (call_stub_async_run ifaceName fnName args st1) as Hcall.
  rewrite Hp1, Hn1, Hc1, Hr1 in Hcall. fold s p call in Hcall.
  set (st2 := set_pendingExternalCalls _ _) in Hcall.
  set (st3 := set_pendingExternalCalls [] st2).
  assert (Hreg : completions st3 dependency !! s =
                   Some {| resolve := FnResolve p; reject := FnReject p |}).
  { subst st3 st2. simpl. rewrite upd_same. apply lookup_insert_eq. }
  assert (Hpromise : promises st3 !! p = Some Pending).
  { subst st3 st2 p. simpl. by rewrite lookup_app_r, Nat.sub_diag. }
  set (r := {| seq := s;
               result := match fn args with Returns v => v | Throws _ => VUndefined end;
               error := match fn args with Returns _ => VUndefined | Throws e => e end |}).
  assert (Hprocess : processExternalCalls deps' [call] true st3 =
                       resolveExternalDependencies [r] st3).
  { unfold processExternalCalls. simpl. unfold call_external. simpl.
    subst deps'. rewrite lookup_insert_eq. simpl. rewrite lookup_insert_eq.
    subst r. by destruct (fn args). }
  pose proof (resolveExternalDependencies_known r _ st3 Hreg) as Hresolve.
  set (st3' := set_completions _ st3) in Hresolve.
  assert (Hpromise' : promises st3' !! p = Some Pending) by done.
  assert (Hraw : (promises st ++ [Pending]) !! p = Some Pending).
  { subst p. by rewrite lookup_app_r, Nat.sub_diag. }
  assert (Hsettle : exists st4,
            resolveExternalDependencies [r] st3 = Ok tt st4
            /\ promises st4 !! p =
                 Some (if truthy (error r) then Rejected (error r)
                       else Fulfilled (result r))
            /\ completions st4 dependency !! s = None
            /\ pendingExternalCalls st4 = []).
  { rewrite Hresolve. destruct (truthy (error r)); simpl; eexists;
      (split; [reflexivity|]); simpl;
      (split; [by apply settle_pending|]);
      unfold settle; simpl; rewrite Hraw; simpl; rewrite ?upd_same;
      (split; [apply lookup_delete_eq|done]). }
  destruct Hsettle as (st4 & Hrun4 & Hp4 & Hc4 & Hq4).
  exists deps', st1, p, st2, st3, st4.
  split. { unfold injectDependency. unfold bind. by rewrite Hinject. }
  split. { unfold call_dependency. by rewrite Hstub. }
  split. { subst st2 p. simpl. by rewrite lookup_app_r, Nat.sub_diag. }
  split. { subst st3 st2. reflexivity. }
  split. { by rewrite Hprocess. }
  split. { rewrite Hp4. subst r. simpl. by destruct (fn args). }
  done.
Qed.

End MoreProperties.

(** ** The logger *)

Lemma log_emits logger timeOfDay level message meta :
  is_Some (log logger timeOfDay level message meta) <->
  severity logger <= indexOf severities level.
Proof.
  unfold log. destruct (Z.leb_spec (severity logger) (indexOf severities level)).
  - split; [done|]. intros _. by eexists.
  - split; [|lia]. intros [entry Hentry]. discriminate Hentry.
Qed.

(** X16. Which messages a [DefaultLogger] lets through, by the level it was
    constructed with ([INFO] when none is given): errors always, warnings
    unless the level is [ERROR], information at [INFO] and below, debug
    messages at [DEBUG] and [TRACE], traces only at [TRACE]. *)
Theorem DefaultLogger_levels (level : option LogLevel) timeOfDay message meta :
  let logger := new_DefaultLogger level in
  let threshold := default INFO level in
  is_Some (log_error logger timeOfDay message meta)
  /\ (is_Some (log_warn logger timeOfDay message meta) <-> threshold <> ERROR)
  /\ (is_Some (log_info logger timeOfDay message meta) <->
        threshold = TRACE \/ threshold = DEBUG \/ threshold = INFO)
  /\ (is_Some (log_debug logger timeOfDay message meta) <->
        threshold = TRACE \/ threshold = DEBUG)
  /\ (is_Some (log_trace logger timeOfDay message meta) <-> threshold = TRACE).
Proof.
  unfold log_error, log_warn, log_info, log_debug, log_trace.
  cbv zeta. rewrite !log_emits.
  destruct level as [[]|]; vm_compute;
    repeat split; intros; try discriminate; auto; try (exfalso; intuition discriminate).
Qed.

Lemma map_keys_empty (m : gmap string Value) :
  Nat.eqb (length (map_to_list m).*1) 0 = true <-> m = ∅.
Proof.
  rewrite Nat.eqb_eq, length_fmap, length_zero_iff_nil.
  apply map_to_list_empty_iff.
Qed.

(** X17. What [log] hands to the log function.  The entry has the level and
    the message given; its timestamp is the one the metadata carries under
    [LogTimestamp], and the time of day otherwise; its metadata never
    carries [LogTimestamp], keeps every other attribute, and is left out
    altogether when no attribute has a string key, even if some have symbol
    keys. *)
Theorem log_entry_contents logger timeOfDay level message meta entry :
  log logger timeOfDay level message meta = Some entry ->
  entry_level entry = level
  /\ entry_message entry = message
  /\ entry_timestampNanos entry =
       match meta ≫= log_timestamp with
       | Some t => t
       | None => timeOfDayToBigint timeOfDay
       end
  /\ (entry_meta entry = None <-> default ∅ (by_name <$> meta) = ∅)
  /\ (forall rest, entry_meta entry = Some rest ->
        log_timestamp rest = None
        /\ Some (by_name rest) = by_name <$> meta
        /\ Some (by_symbol rest) = by_symbol <$> meta).
Proof.
  unfold log. destruct (severity logger <=? _); [|done].
  intros [= <-]. simpl.
  split; [done|]. split; [done|].
  split. { by destruct meta as [[[t|] names symbols]|]. }
  destruct meta as [[t names symbols]|]; simpl.
  - destruct (Nat.eqb _ 0) eqn:Hkeys.
    + apply map_keys_empty in Hkeys. by split.
    + split; [|by intros rest [= <-]].
      split; [done|]. intros Hempty. apply map_keys_empty in Hempty. congruence.
  - rewrite map_to_list_empty. simpl. by split.
Qed.

(** X18. [timeOfDayToBigint] loses nothing: from the nanoseconds it returns,
    the seconds and the nanoseconds of a reading with nanoseconds below one
    second are recovered by division, and later readings give larger
    numbers. *)
Theorem timeOfDayToBigint_round_trip seconds nanos :
  0 <= nanos < 1000000000 ->
  timeOfDayToBigint (seconds, nanos) / 1000000000 = seconds
  /\ timeOfDayToBigint (seconds, nanos) mod 1000000000 = nanos
  /\ (forall seconds' nanos', 0 <= nanos' < 1000000000 ->
        (seconds < seconds' \/ (seconds = seconds' /\ nanos < nanos')) ->
        timeOfDayToBigint (seconds, nanos) < timeOfDayToBigint (seconds', nanos')).
Proof.
  intros Hn. unfold timeOfDayToBigint. split; [|split].
  - rewrite Z.div_add_l by lia. rewrite Z.div_small by lia. lia.
  - rewrite Z.add_comm, Z.mod_add by lia. by apply Z.mod_small.
  - intros seconds' nanos' Hn' Hlt. lia.
Qed.

(** X19. The default log function prints the time of the entry in
    milliseconds.  For a message logged without [LogTimestamp] at a time of
    day that is not negative, the date printed is the seconds times 1000
    plus the whole milliseconds of the nanoseconds; it is followed by the
    level in brackets and the message, and by the metadata when there is
    one. *)
Theorem default_log_prints_milliseconds logger seconds nanos level message meta entry :
  0 <= seconds -> 0 <= nanos ->
  meta ≫= log_timestamp = None ->
  log logger (seconds, nanos) level message meta = Some entry ->
  defaultLogFunction entry =
    [ArgDate (seconds * 1000 + nanos / 1000000);
     ArgText ("[" +:+ level_name level +:+ "]"); ArgText message]
    ++ match entry_meta entry with Some rest => [ArgMeta rest] | None => [] end.
Proof.
  intros Hs Hn Hstamp Hlog.
  assert (Hms : (seconds * 1000000000 + nanos) ÷ 1000000 =
                seconds * 1000 + nanos / 1000000).
  { rewrite Z.quot_div_nonneg by lia.
    replace (seconds * 1000000000) with (seconds * 1000 * 1000000) by lia.
    by rewrite Z.div_add_l by lia. }
  unfold log in Hlog. destruct (severity logger <=? _); [|done].
  injection Hlog as <-. unfold defaultLogFunction. simpl.
  assert (Htime : log_timestamp
                    (default {| log_timestamp := None; by_name := ∅; by_symbol := ∅ |}
                       meta) = None).
  { by destruct meta as [[[t|] names symbols]|]. }
  rewrite Htime. unfold timeOfDayToBigint. rewrite Hms.
  by destruct (Nat.eqb _ 0).
Qed.

(** * The properties on the sample host *)

#[local] Existing Instance sample_host.

Lemma sample_activator_keeps_now v payload (st : State (@Env sample_host)) :
  now (final_state (activator v payload st)) = now st.
Proof. by destruct v. Qed.

(** The timer cycle of the specification: [setTimeout] hands out sequence 0
    and buffers [startTimer]; cancelling the handle buffers [cancelTimer]. *)
Example cancelled_timer_commands :
  commands
    (final_state
       ((h <- setTimeout (overrideGlobals sample_globals) (fun _ user => user + 1) 1000 [] ;;
         clearTimeout (overrideGlobals sample_globals) h) fresh_state)) =
  [startTimer 0 {| seconds := 1; nanos := 0 |}; cancelTimer 0].
Proof. reflexivity. Qed.

(** Two passes are needed on [waiting_state]: the second condition unblocks
    in the first pass and its resolver makes the first one true. *)
Example tryUnblockConditions_two_passes :
  returned (tryUnblockConditions waiting_state) = Some 2
  /\ blockedConditions (final_state (tryUnblockConditions waiting_state)) = []
  /\ env (final_state (tryUnblockConditions waiting_state)) = 11.
Proof. by vm_compute. Qed.

(** The post-completion scenario of the specification: of the two jobs of
    the activation, the timer job is dropped and the query is answered. *)
Example post_completion_query :
  calls (final_state (activate [Byte.x05; Byte.x01; Byte.x00] 1 completed_state)) =
    [CallHandler queryWorkflow (VObject [("id", VStr "1")])]
  /\ commands (final_state (activate [Byte.x05; Byte.x01; Byte.x00] 1 completed_state)) =
    [otherCommand "completeWorkflowExecution" VUndefined;
     otherCommand "respondToQuery" (VObject [("id", VStr "1")])].
Proof. by split. Qed.

(** With the interceptor installed, the conclusion encodes the one command
    the interceptor lets through, and the buffer is emptied all the same. *)
Example intercepted_conclusion :
  let st := set_commands [startTimer 0 {| seconds := 1; nanos := 0 |}; cancelTimer 0]
              fresh_state in
  returned (concludeActivation (H := intercepting_host) st) = Some (complete [Byte.x01])
  /\ commands (final_state (concludeActivation (H := intercepting_host) st)) = [].
Proof. by split. Qed.

Lemma activate_sets_clock_witness :
  Forall (fun i => on_activate i = None) (internals (Host := sample_host))
  /\ timestamp (decodeDelimited [Byte.x05; Byte.x01]) =
       Some {| seconds := 5; nanos := 0 |}
  /\ is_Some (returned (activate [Byte.x05; Byte.x01] 0 fresh_state))
  /\ now (final_state (activate [Byte.x05; Byte.x01] 0 fresh_state)) = 5000
  /\ Date_now (overrideGlobals sample_globals)
       (final_state (activate [Byte.x05; Byte.x01] 0 fresh_state)) =
       Ok 5000 (final_state (activate [Byte.x05; Byte.x01] 0 fresh_state))
  /\ now (final_state (activate [Byte.x05; Byte.x01] 1 fresh_state)) = 0.
Proof.
  assert (Hnone : Forall (fun i => on_activate i = None)
                    (internals (Host := sample_host))) by constructor.
  split; [exact Hnone|]. split; [reflexivity|].
  destruct (activate_sets_clock [Byte.x05; Byte.x01] 0 fresh_state Hnone
              sample_activator_keeps_now) as [Hset _].
  destruct (activate_sets_clock [Byte.x05; Byte.x01] 1 fresh_state Hnone
              sample_activator_keeps_now) as [_ Hkeep].
  destruct (activate [Byte.x05; Byte.x01] 0 fresh_state) as [r st'|e st'] eqn:Hrun.
  - destruct (Hset {| seconds := 5; nanos := 0 |} r st' sample_globals
                eq_refl eq_refl eq_refl) as (Hnow & Hdate & _).
    split; [by eexists|]. split; [exact Hnow|]. split; [exact Hdate|].
    apply Hkeep. right. lia.
  - vm_compute in Hrun. discriminate Hrun.
Defined.


Lemma concludeActivation_pending_iff_calls_witness :
  pendingExternalCalls calling_state <> []
  /\ returned (concludeActivation calling_state) =
       Some (pending
               [{| ifaceName := "metrics"; fnName := "emit"; args := [VNum 42];
                   call_seq := None |}] 0)
  /\ pendingExternalCalls (set_commands [cancelTimer 0] fresh_state) = []
  /\ returned (concludeActivation (set_commands [cancelTimer 0] fresh_state)) =
       Some (complete [Byte.x01])
  /\ commands (final_state (concludeActivation (set_commands [cancelTimer 0] fresh_state))) = [].
Proof.
  assert (Hcalls : pendingExternalCalls calling_state <> []) by discriminate.
  destruct (concludeActivation_pending_iff_calls calling_state) as (Hpending & _).
  destruct (concludeActivation_pending_iff_calls (set_commands [cancelTimer 0] fresh_state))
    as (_ & _ & _ & Hcomplete & _).
  split; [exact Hcalls|]. split; [by rewrite (Hpending Hcalls)|].
  split; [reflexivity|].
  rewrite (Hcomplete eq_refl (List.Forall_nil _)). by split.
Defined.

Lemma concludeActivation_pending_frame_witness :
  commands (final_state (concludeActivation calling_state)) = [cancelTimer 0]
  /\ pendingExternalCalls (final_state (concludeActivation calling_state)) = [].
Proof.
  destruct (concludeActivation calling_state) as [[drained n|encoded] st'|e st'] eqn:Hrun;
    try (vm_compute in Hrun; discriminate Hrun).
  destruct (concludeActivation_pending_frame calling_state st' drained n Hrun)
    as (_ & _ & _ & Hcalls & Hcommands & _).
  unfold final_state. by rewrite Hcommands, Hcalls.
Defined.

Lemma awaiting_state_awaits : awaits_dependency awaiting_state 0 0.
Proof. split; reflexivity. Qed.

Lemma resolveExternalDependencies_settles_witness :
  awaits_dependency awaiting_state 0 0
  /\ promises
       (final_state
          (resolveExternalDependencies
             [{| seq := 0; result := VNum 7; error := VUndefined |}] awaiting_state))
       !! 0%nat = Some (Fulfilled (VNum 7))
  /\ promises
       (final_state
          (resolveExternalDependencies
             [{| seq := 0; result := VUndefined; error := VError "Error" "boom" |}]
             awaiting_state))
       !! 0%nat = Some (Rejected (VError "Error" "boom"))
  /\ returned
       (resolveExternalDependencies
          [{| seq := 5; result := VNum 7; error := VUndefined |}] awaiting_state) = None.
Proof.
  destruct (resolveExternalDependencies_settles awaiting_state)
    as (_ & Hresolve & Hreject & Hunknown).
  split; [exact awaiting_state_awaits|]. split; [|split].
  - destruct (Hresolve 0 0%nat {| seq := 0; result := VNum 7; error := VUndefined |}
                awaiting_state_awaits eq_refl eq_refl) as (st' & -> & Hp & _).
    exact Hp.
  - destruct (Hreject 0 0%nat
                {| seq := 0; result := VUndefined; error := VError "Error" "boom" |}
                awaiting_state_awaits eq_refl eq_refl) as (st' & -> & Hp & _).
    exact Hp.
  - destruct (Hunknown {| seq := 5; result := VNum 7; error := VUndefined |} []
                eq_refl) as (message & ->).
    reflexivity.
Defined.

(** C4 as the specification states it fails: an error that is falsy, here
    the number 0 thrown by the dependency, does not reject the promise.  The
    promise is fulfilled with [result]. *)
Lemma falsy_error_fulfils_promise :
  awaits_dependency awaiting_state 0 0
  /\ promises
       (final_state
          (resolveExternalDependencies
             [{| seq := 0; result := VUndefined; error := VNum 0 |}] awaiting_state))
       !! 0%nat = Some (Fulfilled VUndefined)
  /\ promises
       (final_state
          (resolveExternalDependencies
             [{| seq := 0; result := VUndefined; error := VNum 0 |}] awaiting_state))
       !! 0%nat <> Some (Rejected (VNum 0)).
Proof. split; [exact awaiting_state_awaits|]. by split. Qed.

(** The scenario of the specification: [deps.metrics.emit(42)], injected as
    [ASYNC_IGNORED], returns the number 1. *)
Example metrics_emit_returns_one :
  returned
    ((inject "metrics" "emit" "ref" ASYNC_IGNORED VUndefined ;;
      call_dependency "metrics" "emit" [VNum 42]) fresh_state) =
  Some (RetValue (VNum 1)).
Proof. reflexivity. Qed.

Lemma fresh_state_registry_below : registry_below fresh_state.
Proof. intros k s [c Hc]. simpl in Hc. by rewrite lookup_empty in Hc. Qed.

Lemma sample_host_orderly : orderly_host.
Proof.
  split; [|constructor]. intros v payload st.
  apply quiet_step_orderly. by destruct v.
Qed.

Example timer_sequences :
  seqs_of timer
    (run sample_globals
       [OpActivate [Byte.x05; Byte.x01] 0;
        OpSetTimeout (fun _ user => user) 1000 []; OpClearTimeout 0;
        OpSetTimeout (fun _ user => user) 5 []; OpCallDependency "api" "get" [];
        OpConcludeActivation]
       fresh_state).1 = [0; 2].
Proof. reflexivity. Qed.

Lemma sequence_numbers_strictly_increase_witness :
  orderly_host
  /\ registry_below fresh_state
  /\ StronglySorted Z.lt
       (seqs_of timer
          (run sample_globals
             [OpActivate [Byte.x05; Byte.x01] 0;
              OpSetTimeout (fun _ user => user) 1000 []; OpClearTimeout 0;
              OpSetTimeout (fun _ user => user) 5 []; OpConcludeActivation]
             fresh_state).1).
Proof.
  split; [exact sample_host_orderly|].
  split; [exact fresh_state_registry_below|].
  destruct (sequence_numbers_strictly_increase sample_globals
              [OpActivate [Byte.x05; Byte.x01] 0;
               OpSetTimeout (fun _ user => user) 1000 []; OpClearTimeout 0]
              [OpSetTimeout (fun _ user => user) 5 []; OpConcludeActivation]
              fresh_state timer sample_host_orderly fresh_state_registry_below)
    as (Hlog & Hsorted & _).
  rewrite <- Hlog in Hsorted. exact Hsorted.
Defined.

Lemma waiting_state_keys : NoDup (blockedConditions waiting_state).*1.
Proof.
  apply NoDup_cons. split; [|apply NoDup_singleton].
  intros Hin. apply list_elem_of_singleton in Hin. discriminate Hin.
Qed.

Lemma tryUnblockConditions_fixed_point_witness :
  NoDup (blockedConditions waiting_state).*1
  /\ returned (tryUnblockConditions waiting_state) = Some 2
  /\ Forall (fun e => holds e (env (final_state (tryUnblockConditions waiting_state))) = false)
       (blockedConditions (final_state (tryUnblockConditions waiting_state))).
Proof.
  split; [exact waiting_state_keys|].
  destruct (tryUnblockConditions_fixed_point waiting_state waiting_state_keys)
    as (removed & st' & Hrun & _ & _ & _ & _ & _ & _ & Hfix & _).
  split; [reflexivity|]. rewrite Hrun. exact Hfix.
Defined.

(** * The further properties on the sample hosts *)

Lemma setTimeout_keeps_timers_witness :
  registry_below fresh_state
  /\ exists handle st',
       setTimeout (overrideGlobals sample_globals) (fun _ user => user) 1000 [] fresh_state =
         Ok handle st'
       /\ completions fresh_state timer !! handle = None
       /\ registry_below st'.
Proof.
  split; [exact fresh_state_registry_below|].
  destruct (setTimeout_keeps_timers sample_globals (fun _ user => user) 1000 []
              fresh_state fresh_state_registry_below)
    as (handle & st' & Hrun & Hfresh & _ & _ & _ & _ & Hwf).
  by exists handle, st'.
Defined.

Lemma clearTimeout_unregistered_handle_witness :
  completions fresh_state timer !! 5 = None
  /\ commands (final_state (clearTimeout (overrideGlobals sample_globals) 5 fresh_state)) =
       [cancelTimer 5]
  /\ nextSeqs (final_state (clearTimeout (overrideGlobals sample_globals) 5 fresh_state))
       timer = 1.
Proof.
  split; [reflexivity|].
  destruct (clearTimeout_unregistered_handle sample_globals 5 fresh_state)
    as (st' & Hrun & _ & Hunregistered).
  destruct (Hunregistered eq_refl) as (_ & Hcommands & Hseq).
  rewrite Hrun. unfold final_state. by rewrite Hcommands, Hseq.
Defined.

Lemma resolveExternalDependencies_once_witness :
  awaits_dependency awaiting_state 0 0
  /\ returned
       (resolveExternalDependencies
          [{| seq := 0; result := VNum 7; error := VUndefined |};
           {| seq := 0; result := VNum 8; error := VUndefined |}] awaiting_state) = None
  /\ promises
       (final_state
          (resolveExternalDependencies
             [{| seq := 0; result := VNum 7; error := VUndefined |};
              {| seq := 0; result := VNum 8; error := VUndefined |}] awaiting_state))
       !! 0%nat = Some (Fulfilled (VNum 7)).
Proof.
  split; [exact awaiting_state_awaits|].
  destruct (resolveExternalDependencies_once awaiting_state 0 0%nat
              {| seq := 0; result := VNum 7; error := VUndefined |}
              {| seq := 0; result := VNum 8; error := VUndefined |}
              awaiting_state_awaits eq_refl eq_refl)
    as (st1 & message & _ & Hsettled & _ & Hboth).
  rewrite Hboth. by split.
Defined.

Lemma resolveExternalDependencies_in_order_witness :
  resolveExternalDependencies [{| seq := 0; result := VNum 7; error := VUndefined |}]
    awaiting_state =
    Ok tt
      (final_state
         (resolveExternalDependencies
            [{| seq := 0; result := VNum 7; error := VUndefined |}] awaiting_state))
  /\ promises
       (final_state
          (resolveExternalDependencies
             [{| seq := 0; result := VNum 7; error := VUndefined |};
              {| seq := 9; result := VNum 8; error := VUndefined |}] awaiting_state))
       !! 0%nat = Some (Fulfilled (VNum 7)).
Proof.
  assert (Hfirst : resolveExternalDependencies
                     [{| seq := 0; result := VNum 7; error := VUndefined |}]
                     awaiting_state =
                   Ok tt
                     (final_state
                        (resolveExternalDependencies
                           [{| seq := 0; result := VNum 7; error := VUndefined |}]
                           awaiting_state))) by reflexivity.
  split; [exact Hfirst|].
  destruct (resolveExternalDependencies_in_order
              [{| seq := 0; result := VNum 7; error := VUndefined |}]
              [{| seq := 9; result := VNum 8; error := VUndefined |}] awaiting_state)
    as (_ & Hthrow & _).
  destruct (resolveExternalDependencies
              [{| seq := 9; result := VNum 8; error := VUndefined |}]
              (final_state
                 (resolveExternalDependencies
                    [{| seq := 0; result := VNum 7; error := VUndefined |}]
                    awaiting_state))) as [[] st2|e st2] eqn:Hsecond;
    [vm_compute in Hsecond; discriminate Hsecond|].
  pose proof (Hthrow _ _ _ Hfirst Hsecond) as Hrun. simpl app in Hrun.
  vm_compute in Hsecond. injection Hsecond as <- <-.
  rewrite Hrun. reflexivity.
Defined.


Lemma concludeActivation_after_pending_witness :
  Forall (fun i => on_concludeActivation i = None) (internals (Host := sample_host))
  /\ pendingExternalCalls calling_state <> []
  /\ returned
       (concludeActivation (final_state (concludeActivation calling_state))) =
       Some (complete [Byte.x01]).
Proof.
  assert (Hnone : Forall (fun i => on_concludeActivation i = None)
                    (internals (Host := sample_host))) by constructor.
  assert (Hcalls : pendingExternalCalls calling_state <> []) by discriminate.
  split; [exact Hnone|]. split; [exact Hcalls|].
  destruct (concludeActivation_after_pending calling_state Hnone Hcalls)
    as (st1 & st2 & Hfirst & Hsecond & _).
  rewrite Hfirst. unfold final_state. by rewrite Hsecond.
Defined.

Lemma activate_checks_first_batch_witness :
  Forall (fun i => on_activate i = None) (internals (Host := sample_host))
  /\ info (set_info None fresh_state) = None
  /\ returned (activate [Byte.x05; Byte.x01] 0 (set_info None fresh_state)) = None
  /\ returned (activate [Byte.x05] 1 (set_info None fresh_state)) =
       Some {| externalCalls := []; numBlockedConditions := 0 |}.
Proof.
  assert (Hnone : Forall (fun i => on_activate i = None)
                    (internals (Host := sample_host))) by constructor.
  split; [exact Hnone|]. split; [reflexivity|].
  destruct (activate_checks_first_batch [Byte.x05; Byte.x01]
              (set_info None fresh_state) Hnone) as (Huninit & _ & _).
  destruct (activate_checks_first_batch [Byte.x05]
              (set_info None fresh_state) Hnone) as (_ & _ & Hlater).
  split.
  - by rewrite (Huninit eq_refl).
  - rewrite (Hlater 1); [reflexivity|lia|reflexivity].
Defined.

Lemma undefined_variant_rejects_activation_witness :
  Forall (fun i => on_activate i = None) (internals (Host := completing_host))
  /\ variant (completing_job Byte.x02) = None
  /\ returned (activate [Byte.x00; Byte.x02; Byte.x00] 1 running_state) = None
  /\ commands (final_state (activate [Byte.x00; Byte.x02; Byte.x00] 1 running_state)) =
       [otherCommand "respondToQuery" (VObject [("id", VStr "1")]);
        otherCommand "respondToQuery" (VObject [("id", VStr "1")])].
Proof.
  assert (Hnone : Forall (fun i => on_activate i = None)
                    (internals (Host := completing_host))) by constructor.
  split; [exact Hnone|]. split; [reflexivity|].
  destruct (undefined_variant_rejects_activation (H := completing_host)
              [Byte.x00; Byte.x02; Byte.x00] 1
              [completing_job Byte.x00] (completing_job Byte.x02)
              [completing_job Byte.x00] running_state Hnone eq_refl eq_refl)
    as (Hthrows & Hstate).
  split; [exact Hthrows|]. rewrite Hstate. reflexivity.
Defined.

Lemma completing_job_drops_the_rest_witness :
  completed (start_job (completing_job Byte.x01) running_state).2 = true
  /\ commands
       (start_jobs [completing_job Byte.x01; completing_job Byte.x01;
                    completing_job Byte.x03] running_state).2 =
       [otherCommand "completeWorkflowExecution" VUndefined].
Proof.
  split; [reflexivity|].
  destruct (completing_job_drops_the_rest (H := completing_host)
              (completing_job Byte.x01)
              [completing_job Byte.x01; completing_job Byte.x03] running_state eq_refl)
    as (statuses & Hrun & _).
  - repeat constructor; discriminate.
  - rewrite Hrun. reflexivity.
Defined.

Lemma tryUnblockConditions_twice_witness :
  NoDup (blockedConditions waiting_state).*1
  /\ returned
       (tryUnblockConditions (final_state (tryUnblockConditions waiting_state))) = Some 0.
Proof.
  split; [exact waiting_state_keys|].
  destruct (tryUnblockConditions_twice waiting_state waiting_state_keys)
    as (n & st' & Hfirst & Hsecond & _).
  rewrite Hfirst. unfold final_state. by rewrite Hsecond.
Defined.

Lemma addDefaultTransferOptions_merges_witness :
  ({[ "arguments" := VObject [("reference", VBool true)] ]} : TransferOptions)
    !! "result" = None
  /\ addDefaultTransferOptions SYNC
       (Some {[ "arguments" := VObject [("reference", VBool true)] ]}) !! "arguments" =
       Some (VObject [("reference", VBool true)])
  /\ addDefaultTransferOptions SYNC
       (Some {[ "arguments" := VObject [("reference", VBool true)] ]}) !! "result" =
       Some copy_true.
Proof.
  destruct (addDefaultTransferOptions_merges SYNC
              (Some {[ "arguments" := VObject [("reference", VBool true)] ]}))
    as (Hgiven & _ & Hresult & _).
  split; [reflexivity|]. split.
  - apply Hgiven. reflexivity.
  - apply Hresult. reflexivity.
Defined.

Lemma processExternalCalls_sends_nothing_witness :
  returned
    (processExternalCalls sample_dependencies
       [{| ifaceName := "api"; fnName := "get"; args := []; call_seq := Some 0 |};
        {| ifaceName := "api"; fnName := "put"; args := []; call_seq := Some 1 |}]
       true awaiting_state) = None
  /\ processExternalCalls sample_dependencies
       [{| ifaceName := "api"; fnName := "get"; args := []; call_seq := Some 0 |}]
       false awaiting_state = Ok tt awaiting_state.
Proof.
  destruct (processExternalCalls_sends_nothing (H := sample_host) sample_dependencies
              [{| ifaceName := "api"; fnName := "get"; args := []; call_seq := Some 0 |};
               {| ifaceName := "api"; fnName := "put"; args := []; call_seq := Some 1 |}]
              true awaiting_state) as (Hthrows & _).
  destruct (processExternalCalls_sends_nothing (H := sample_host) sample_dependencies
              [{| ifaceName := "api"; fnName := "get"; args := []; call_seq := Some 0 |}]
              false awaiting_state) as (_ & Hquiet).
  split.
  - destruct Hthrows as [message ->]; [|reflexivity].
    apply Exists_cons_tl, Exists_cons_hd. reflexivity.
  - apply Hquiet; [|by left].
    constructor; [|constructor]. by eexists.
Defined.

Lemma async_dependency_round_trip_witness :
  pendingExternalCalls fresh_state = []
  /\ exists deps' st1 p st2 st3 st4,
       injectDependency sample_dependencies "api" "sum"
         (fun args => Returns (VNum (Z.of_nat (length args)))) "ref" ASYNC None fresh_state =
         Ok deps' st1
       /\ call_dependency "api" "sum" [VNum 1; VNum 2] st1 = Ok (RetPromise p) st2
       /\ getAndResetPendingExternalCalls st2 =
            Ok [{| ifaceName := "api"; fnName := "sum"; args := [VNum 1; VNum 2];
                   call_seq := Some 0 |}] st3
       /\ processExternalCalls deps'
            [{| ifaceName := "api"; fnName := "sum"; args := [VNum 1; VNum 2];
                call_seq := Some 0 |}] true st3 = Ok tt st4
       /\ promises st4 !! p = Some (Fulfilled (VNum 2)).
Proof.
  split; [reflexivity|].
  destruct (async_dependency_round_trip (H := sample_host) sample_dependencies
              "api" "sum" (fun args => Returns (VNum (Z.of_nat (length args)))) "ref"
              None [VNum 1; VNum 2] fresh_state eq_refl)
    as (deps' & st1 & p & st2 & st3 & st4 & H1 & H2 & _ & H3 & H4 & H5 & _).
  by exists deps', st1, p, st2, st3, st4.
Defined.

Lemma DefaultLogger_levels_witness :
  is_Some (log_info (new_DefaultLogger None) (1, 500000000) "started" None)
  /\ ~ is_Some (log_debug (new_DefaultLogger None) (1, 500000000) "started" None).
Proof.
  destruct (DefaultLogger_levels None (1, 500000000) "started" None)
    as (_ & _ & Hinfo & Hdebug & _).
  split.
  - apply Hinfo. auto.
  - intros Hs. apply Hdebug in Hs. destruct Hs; discriminate.
Defined.

Lemma log_entry_contents_witness :
  exists entry,
    log (new_DefaultLogger None) (1, 500000000) WARN "slow" (Some sample_meta) = Some entry
    /\ entry_timestampNanos entry = 1500000000
    /\ entry_message entry = "slow".
Proof.
  destruct (log (new_DefaultLogger None) (1, 500000000) WARN "slow" (Some sample_meta))
    as [entry|] eqn:Hlog; [|discriminate Hlog].
  destruct (log_entry_contents _ _ _ _ _ _ Hlog) as (_ & Hmessage & Htime & _).
  exists entry. by split.
Defined.

Lemma timeOfDayToBigint_round_trip_witness :
  0 <= 500000000 < 1000000000
  /\ timeOfDayToBigint (1634000000, 500000000) / 1000000000 = 1634000000
  /\ timeOfDayToBigint (1634000000, 500000000) mod 1000000000 = 500000000.
Proof.
  assert (Hn : 0 <= 500000000 < 1000000000) by lia.
  split; [exact Hn|].
  destruct (timeOfDayToBigint_round_trip 1634000000 500000000 Hn) as (Hs & Hm & _).
  by split.
Defined.

Lemma default_log_prints_milliseconds_witness :
  exists entry,
    log (new_DefaultLogger None) (1, 500000000) ERROR "boom" None = Some entry
    /\ defaultLogFunction entry = [ArgDate 1500; ArgText "[ERROR]"; ArgText "boom"].
Proof.
  destruct (log (new_DefaultLogger None) (1, 500000000) ERROR "boom" None)
    as [entry|] eqn:Hlog; [|discriminate Hlog].
  exists entry. split; [reflexivity|].
  rewrite (default_log_prints_milliseconds (new_DefaultLogger None) 1 500000000 ERROR
             "boom" None entry);
    [|lia|lia|reflexivity|exact Hlog].
  injection Hlog as <-. reflexivity.
Defined.
